(** * Spark SQL string functions of velox/functions/sparksql/String.h

    A shallow embedding of the substring / trim / search functions and the
    properties the specification states about them.

    Buffers are lists of bytes; a pointer into a buffer is an offset (a [Z])
    from the buffer's [data()]; [size_t] and [int32_t] values are integers
    with their wrap-around written out. *)

From Stdlib Require Import ZArith List Bool Lia Strings.Byte.
From Stdlib Require Strings.String.
Import String.StringSyntax.
Import ListNotations.

Local Open Scope Z_scope.

(* ================================================================== *)
(** ** Machine integers *)

Module Int.

Definition INT32_MIN : Z := - 2 ^ 31.
Definition INT32_MAX : Z := 2 ^ 31 - 1.
Definition UINT32_MAX : Z := 2 ^ 32 - 1.

(** [std::string_view::npos], the largest [size_t]. *)
Definition npos : Z := 2 ^ 64 - 1.

Definition in_int32 (x : Z) : Prop := INT32_MIN <= x <= INT32_MAX.

(** Two's-complement reduction of an integer to [int32_t]. *)
Definition wrap32 (x : Z) : Z := (x + 2 ^ 31) mod 2 ^ 32 - 2 ^ 31.

(** Reduction of an integer to [size_t] (64 bits, unsigned). *)
Definition wrap64 (x : Z) : Z := x mod 2 ^ 64.

(** [__builtin_add_overflow(a, b, &r)] on [int32_t]: the flag and the
    wrapped sum. *)
Definition add_overflow (a b : Z) : bool * Z :=
  (negb ((INT32_MIN <=? a + b) && (a + b <=? INT32_MAX)), wrap32 (a + b)).

End Int.
Import Int.

(* ================================================================== *)
(** ** Buffers and [std::string_view] *)

Definition bytes := list byte.

(** [s.size()] / [s.length()]. *)
Definition size (s : bytes) : Z := Z.of_nat (List.length s).

(** [s.empty()]. *)
Definition empty (s : bytes) : bool := size s =? 0.

(** The byte a pointer at offset [off] of [s] points to. *)
Definition byte_at (s : bytes) (off : Z) : byte := nth (Z.to_nat off) s x00.

(** [std::string_view(s.data() + off, len)]: the bytes the view covers.
    Bytes past the end of the buffer are not part of the model. *)
Definition sv_make (s : bytes) (off len : Z) : bytes :=
  firstn (Z.to_nat len) (skipn (Z.to_nat off) s).

Fixpoint bytes_eqb (a b : bytes) : bool :=
  match a, b with
  | [], [] => true
  | x :: a', y :: b' => Byte.eqb x y && bytes_eqb a' b'
  | _, _ => false
  end.

(** [d] is a prefix of [s]: the comparison [find] and [rfind] make at one
    candidate position. *)
Fixpoint prefixb (d s : bytes) : bool :=
  match d, s with
  | [], _ => true
  | x :: d', y :: s' => Byte.eqb x y && prefixb d' s'
  | _ :: _, [] => false
  end.

(** The match test at position [i]: [d] occurs in [s] starting at [i]. *)
Definition match_at (s d : bytes) (i : nat) : bool :=
  (i <=? List.length s)%nat && prefixb d (skipn i s).

(** Lowest offset in [s] at which [d] occurs. *)
Fixpoint find_list (d s : bytes) : option nat :=
  if prefixb d s then Some O
  else match s with
       | [] => None
       | _ :: s' => option_map S (find_list d s')
       end.

(** [s.find(d, pos)]: the lowest [xpos >= pos] with
    [xpos + d.size() <= s.size()] at which [d] occurs, else [npos]. *)
Definition sv_find (s d : bytes) (pos : Z) : Z :=
  if size s <? pos then npos
  else match find_list d (skipn (Z.to_nat pos) s) with
       | Some k => pos + Z.of_nat k
       | None => npos
       end.

(** Highest candidate position [<= k] at which [d] occurs in [s]. *)
Fixpoint rfind_down (s d : bytes) (k : nat) : option nat :=
  if prefixb d (skipn k s) then Some k
  else match k with
       | O => None
       | S k' => rfind_down s d k'
       end.

(** [s.rfind(d, pos)]: the highest [xpos <= pos] with
    [xpos + d.size() <= s.size()] at which [d] occurs, else [npos]. *)
Definition sv_rfind (s d : bytes) (pos : Z) : Z :=
  if size s <? size d then npos
  else match rfind_down s d (Z.to_nat (Z.min pos (size s - size d))) with
       | Some k => Z.of_nat k
       | None => npos
       end.

(** [s.substr(pos, n)]: throws [std::out_of_range] ([None]) when
    [pos > s.size()]. *)
Definition sv_substr (s : bytes) (pos n : Z) : option bytes :=
  if size s <? pos then None
  else Some (sv_make s pos (Z.min n (size s - pos))).

(** Membership of one byte in a byte set given as a string. *)
Definition byte_in (set : bytes) (b : byte) : bool := existsb (Byte.eqb b) set.

(** Lowest offset whose byte is not in [set]. *)
Fixpoint first_not_of (set s : bytes) : option nat :=
  match s with
  | [] => None
  | b :: s' => if byte_in set b then option_map S (first_not_of set s')
               else Some O
  end.

(** [s.find_first_not_of(set)]. *)
Definition sv_find_first_not_of (s set : bytes) : Z :=
  match first_not_of set s with
  | Some k => Z.of_nat k
  | None => npos
  end.

(** [s.find_last_not_of(set)]: the highest offset whose byte is not in
    [set]; the scan is the forward one on the reversed buffer. *)
Definition sv_find_last_not_of (s set : bytes) : Z :=
  match first_not_of set (rev s) with
  | Some k => size s - 1 - Z.of_nat k
  | None => npos
  end.

(* ================================================================== *)
(** ** Results *)

(** What a function leaves in its [out_type<Varchar>]: the empty marker, or
    a non-owning view ([setNoCopy]) given by its offset from the [data()]
    of the first string argument and its size. *)
Inductive out_type : Type :=
| setEmpty
| setNoCopy (offset sz : Z).

(** The bytes a result denotes, read from the buffer it aliases. *)
Definition bytes_of (input : bytes) (r : out_type) : bytes :=
  match r with
  | setEmpty => []
  | setNoCopy off n => sv_make input off n
  end.

(** The view lies inside the buffer. *)
Definition in_bounds (input : bytes) (r : out_type) : bool :=
  match r with
  | setEmpty => true
  | setNoCopy off n => (0 <=? off) && (0 <=? n) && (off + n <=? size input)
  end.

(** Buffers of the engine: [StringView] keeps its size in a [uint32_t]. *)
Definition view_size (s : bytes) : Prop := size s <= UINT32_MAX.

(** Strings of the dialect have at most [INT32_MAX] bytes, the range of
    the [int32_t] that [SubstrFunction] keeps the character count in. *)
Definition spark_size (s : bytes) : Prop := size s <= INT32_MAX.

(** Byte strings of examples. *)
Definition bs (s : String.string) : bytes := String.list_byte_of_string s.
Arguments bs s%_string_scope.

(* ================================================================== *)
(** ** BytewisePredicates: contains, startsWith, endsWith *)

Definition ContainsFunction_call (str pattern : bytes) : bool :=
  negb (sv_find str pattern 0 =? npos).

(** [None] stands for the exception [substr] throws on a bad position. *)
Definition StartsWithFunction_call (str pattern : bytes) : option bool :=
  let str1 := str in
  let str2 := pattern in
  if size str1 <? size str2 then Some false
  else option_map (fun p => bytes_eqb p str2) (sv_substr str1 0 (size str2)).

Definition EndsWithFunction_call (str pattern : bytes) : option bool :=
  let str1 := str in
  let str2 := pattern in
  if size str1 <? size str2 then Some false
  else option_map (fun p => bytes_eqb p str2)
         (sv_substr str1 (wrap64 (size str1 - size str2)) (size str2)).

(* ================================================================== *)
(** ** DelimiterSplitter: substring_index *)

Section SubstringIndex.

Variables (strView delimView : bytes) (count : Z).

(** The loop of the branch [count > 0], from the state [(n, index)].
    [fuel] bounds the number of iterations; [count] of them suffice. *)
Fixpoint find_loop (fuel : nat) (n index : Z) : Z :=
  match fuel with
  | O => index
  | S fuel' =>
      if n <? count then
        let n := wrap32 (n + 1) in
        let index := sv_find strView delimView index in
        if index =? npos then index
        else
          let index := if n <? count then wrap64 (index + 1) else index in
          find_loop fuel' n index
      else index
  end.

(** The loop of the branch [count < 0]; [mcount] is the value of
    [-count]. *)
Fixpoint rfind_loop (mcount : Z) (fuel : nat) (n index : Z) : Z :=
  match fuel with
  | O => index
  | S fuel' =>
      if n <? mcount then
        let n := wrap32 (n + 1) in
        let index := sv_rfind strView delimView index in
        if index =? npos then index
        else
          let index := if n <? mcount then wrap64 (index - 1) else index in
          rfind_loop mcount fuel' n index
      else index
  end.

Definition SubstringIndexFunction_call : out_type :=
  if count =? 0 then setEmpty
  else
    let strLen := size strView in
    let delimLen := size delimView in
    let index :=
      if 0 <? count then find_loop (Z.to_nat count) 0 0
      else
        let mcount := wrap32 (- count) in
        rfind_loop mcount (Z.to_nat mcount) 0 (wrap64 (strLen - 1)) in
    if index =? npos then setNoCopy 0 (size strView)
    else if 0 <? count then setNoCopy 0 index
    else
      let resultSize := wrap64 (wrap64 (size strView - index) - delimLen) in
      setNoCopy (index + delimLen) resultSize.

End SubstringIndex.

(* ================================================================== *)
(** ** CodepointIndexer *)

(** Modelled from the spec: [utf8proc_char_length] is not among the
    sources.  The byte length of the codepoint a leading byte starts, 1 to
    4, read off the high bits of that byte (section 4.1).  The spec leaves
    the value at a byte that starts no codepoint open; the model answers 1
    there. *)
Definition utf8proc_char_length (b : byte) : Z :=
  let u0 := Z.of_N (Byte.to_N b) in
  if u0 <? 128 then 1
  else if Z.land u0 224 =? 192 then 2
  else if Z.land u0 240 =? 224 then 3
  else if Z.land u0 248 =? 240 then 4
  else 1.

(** Modelled from the spec: [utf8proc_char_first_byte] is not among the
    sources.  A byte is a codepoint's first byte iff its two high bits are
    not [10] (section 4.1). *)
Definition utf8proc_char_first_byte (b : byte) : bool :=
  negb (Z.land (Z.of_N (Byte.to_N b)) 192 =? 128).

(** The single-byte (ASCII) codepoints. *)
Definition is_ascii (b : byte) : bool := Z.of_N (Byte.to_N b) <? 128.

(** Modelled from the spec: the counting loop behind
    [stringImpl::length<false>] is not among the sources.  The number of
    codepoints from offset [off] to the end of [buf], each step adding the
    byte length of one codepoint; a buffer of [fuel] bytes needs at most
    [fuel] steps. *)
Fixpoint count_codepoints (fuel : nat) (buf : bytes) (off : Z) : Z :=
  match fuel with
  | O => 0
  | S fuel' =>
      if off <? size buf
      then 1 + count_codepoints fuel' buf
                 (off + utf8proc_char_length (byte_at buf off))
      else 0
  end.

(** Modelled from the spec: [stringImpl::length<isAscii>] is not among the
    sources.  The total codepoint count of the input; with the ASCII hint
    it is the byte count (sections 4.1 and 4.2, rule 3). *)
Definition stringImpl_length (isAscii : bool) (input : bytes) : Z :=
  if isAscii then size input
  else count_codepoints (List.length input) input 0.

(** Modelled from the spec: the advance of the CodepointIndexer (section
    4.1).  From byte offset [off], add the byte length of [count]
    codepoints; saturate at the end of the buffer when it is exhausted
    before the count is reached. *)
Fixpoint advance (buf : bytes) (count : nat) (off : Z) : Z :=
  match count with
  | O => off
  | S count' =>
      if off <? size buf
      then advance buf count'
             (Z.min (size buf) (off + utf8proc_char_length (byte_at buf off)))
      else size buf
  end.

(** Modelled from the spec: [stringCore::getByteRange<isAscii>] is not
    among the sources.  The byte range [(first, second)] of the 1-based
    codepoint range [[start, start + length - 1]]; with the ASCII hint it
    is offset arithmetic with no decoding (section 4.2, rule 8). *)
Definition getByteRange (isAscii : bool) (str : bytes) (start length : Z)
  : Z * Z :=
  if isAscii then (start - 1, start + length - 1)
  else
    let startByteIndex := advance str (Z.to_nat (start - 1)) 0 in
    (startByteIndex, advance str (Z.to_nat length) startByteIndex).

(* ================================================================== *)
(** ** SubstringExtractor: substr *)

Definition SubstrFunction_doCall
  (isAscii : bool) (input : bytes) (start length : Z) : out_type :=
  if length <=? 0 then setEmpty
  else
    let start := if start =? 0 then 1 else start in
    let numCharacters := wrap32 (stringImpl_length isAscii input) in
    let start :=
      if start <? 0 then wrap32 (wrap32 (numCharacters + start) + 1)
      else start in
    let '(lastOverflow, last) := add_overflow start (wrap32 (length - 1)) in
    let last :=
      if lastOverflow || (numCharacters <? last) then numCharacters
      else last in
    let start := if start <=? 0 then 1 else start in
    let length := wrap32 (wrap32 (last - start) + 1) in
    if length <=? 0 then setEmpty
    else
      let byteRange := getByteRange isAscii input start length in
      setNoCopy (fst byteRange) (wrap64 (snd byteRange - fst byteRange)).

Definition SubstrFunction_call := SubstrFunction_doCall false.
Definition SubstrFunction_callAscii := SubstrFunction_doCall true.

(** The two-argument form: [length] defaults to
    [std::numeric_limits<int32_t>::max()]. *)
Definition SubstrFunction_call2 (input : bytes) (start : Z) : out_type :=
  SubstrFunction_call input start INT32_MAX.

(** The rules of section 4.2 in the order the spec gives them, over the
    integers: no step wraps, and overflow of the checked addition is a sum
    outside [int32_t]. *)
Definition substr_rules
  (isAscii : bool) (input : bytes) (start length : Z) : out_type :=
  if length <=? 0 then setEmpty                                  (* 1 *)
  else
    let start := if start =? 0 then 1 else start in              (* 2 *)
    let numCodepoints := stringImpl_length isAscii input in      (* 3 *)
    let start :=
      if start <? 0 then numCodepoints + start + 1 else start in (* 4 *)
    let sum := start + length - 1 in                             (* 5 *)
    let overflows := (sum <? INT32_MIN) || (INT32_MAX <? sum) in
    let last :=
      if overflows || (numCodepoints <? sum) then numCodepoints else sum in
    let start := if start <=? 0 then 1 else start in             (* 6 *)
    let length := last - start + 1 in                            (* 7 *)
    if length <=? 0 then setEmpty
    else
      let byteRange := getByteRange isAscii input start length in (* 8 *)
      setNoCopy (fst byteRange) (snd byteRange - fst byteRange).

(* ================================================================== *)
(** ** TrimEngine: trim, ltrim, rtrim with a trim set *)

Section Trim.

Variables (leftTrim rightTrim : bool).
Variables (trimStr srcStr : bytes).

Definition TrimFunctionBase_callAscii : out_type :=
  if empty srcStr then setEmpty
  else if empty trimStr then setNoCopy 0 (size srcStr)
  else
    let trimStrView := trimStr in
    let resultStartIndex :=
      if leftTrim then sv_find_first_not_of srcStr trimStrView else 0 in
    if leftTrim && (resultStartIndex =? npos) then setEmpty
    else
      let resultSize := wrap64 (size srcStr - resultStartIndex) in
      if rightTrim then
        let lastIndex :=
          sv_find_last_not_of
            (sv_make srcStr resultStartIndex resultSize) trimStrView in
        if lastIndex =? npos then setEmpty
        else setNoCopy resultStartIndex (wrap64 (lastIndex + 1))
      else setNoCopy resultStartIndex resultSize.

(** The left scan of [call]: [resultBegin] moves forward one codepoint
    at a time while the codepoint occurs in the trim string. *)
Fixpoint ltrim_loop (fuel : nat) (resultBegin : Z) : Z :=
  match fuel with
  | O => resultBegin
  | S fuel' =>
      if resultBegin <? size srcStr then
        let charLen := utf8proc_char_length (byte_at srcStr resultBegin) in
        let c := sv_make srcStr resultBegin charLen in
        if sv_find trimStr c 0 =? npos then resultBegin
        else ltrim_loop fuel' (resultBegin + charLen)
      else resultBegin
  end.

(** The right scan of [call]: [curPos] walks backward byte by byte; at
    each first byte the codepoint [curPos, resultEnd) is tested.  The
    value is the final [resultEnd]. *)
Fixpoint rtrim_loop (fuel : nat) (resultBegin curPos resultEnd : Z) : Z :=
  match fuel with
  | O => resultEnd
  | S fuel' =>
      if resultBegin <=? curPos then
        if utf8proc_char_first_byte (byte_at srcStr curPos) then
          let c := sv_make srcStr curPos (resultEnd - curPos) in
          if sv_find trimStr c 0 =? npos then resultEnd
          else rtrim_loop fuel' resultBegin (curPos - 1) curPos
        else rtrim_loop fuel' resultBegin (curPos - 1) resultEnd
      else resultEnd
  end.

Definition TrimFunctionBase_call : out_type :=
  if empty srcStr then setEmpty
  else if empty trimStr then setNoCopy 0 (size srcStr)
  else
    let resultBegin :=
      if leftTrim then ltrim_loop (List.length srcStr) 0 else 0 in
    let resultEnd := size srcStr in
    let resultEnd :=
      if rightTrim
      then rtrim_loop (List.length srcStr) resultBegin (resultEnd - 1)
             resultEnd
      else resultEnd in
    setNoCopy resultBegin (resultEnd - resultBegin).

End Trim.

Definition TrimFunction_call := TrimFunctionBase_call true true.
Definition LTrimFunction_call := TrimFunctionBase_call true false.
Definition RTrimFunction_call := TrimFunctionBase_call false true.
Definition TrimFunction_callAscii := TrimFunctionBase_callAscii true true.
Definition LTrimFunction_callAscii := TrimFunctionBase_callAscii true false.
Definition RTrimFunction_callAscii := TrimFunctionBase_callAscii false true.

(** A three-character string of a 2-, a 3- and a 4-byte codepoint. *)
Definition multibyte : bytes :=
  [xc3; xa9; xe2; x82; xac; xf0; x9f; x98; x80].

(* ================================================================== *)
(** ** chr *)

(** The store of an integer into a [char] of the result buffer: its low
    eight bits. *)
Definition char_of (v : Z) : byte :=
  match Byte.of_N (Z.to_N (v mod 256)) with
  | Some b => b
  | None => x00
  end.

(** The unsigned value of a byte. *)
Definition byte_value (b : byte) : Z := Z.of_N (Byte.to_N b).

(** [ChrFunction::call]: the bytes left in [result], which the function
    resizes and owns. *)
Definition ChrFunction_call (ord : Z) : bytes :=
  if ord <? 0 then []
  else
    let ord := Z.land ord 255 in
    if ord <? 128 then [char_of ord]
    else [char_of (192 + Z.shiftr ord 6); char_of (128 + Z.land ord 63)].

(** The scalar value a one- or two-byte UTF-8 sequence encodes. *)
Definition scalar_value (c : bytes) : option Z :=
  match c with
  | [b] => if byte_value b <? 128 then Some (byte_value b) else None
  | [b0; b1] =>
      if (Z.land (byte_value b0) 224 =? 192)
         && (Z.land (byte_value b1) 192 =? 128)
      then Some (Z.lor (Z.shiftl (Z.land (byte_value b0) 31) 6)
                   (Z.land (byte_value b1) 63))
      else None
  | _ => None
  end.

(* ================================================================== *)
(** ** Notions the properties are stated with *)

(** All offsets at which [d] occurs in [s], in ascending order.  Every
    offset is tested on its own, so occurrences that overlap are all
    listed. *)
Definition occurrences (s d : bytes) : list nat :=
  filter (match_at s d) (seq 0 (S (List.length s))).

(** Occurrences of [d] in [s] at offsets [i] and above. *)
Definition occ_from (s d : bytes) (i : nat) : list nat :=
  filter (match_at s d) (seq i (S (List.length s) - i)).

(** Occurrences of [d] in [s] at offsets below [k], from the right. *)
Definition occ_below (s d : bytes) (k : nat) : list nat :=
  rev (filter (match_at s d) (seq 0 k)).

(** The codepoint window [(start, length)] that rules 2 and 4 to 7 of
    section 4.2 select in a text of [N] codepoints, over the integers. *)
Definition substr_window (N start length : Z) : Z * Z :=
  let start := if start =? 0 then 1 else start in
  let start := if start <? 0 then N + start + 1 else start in
  let sum := start + length - 1 in
  let overflows := (sum <? INT32_MIN) || (INT32_MAX <? sum) in
  let last := if overflows || (N <? sum) then N else sum in
  let start := if start <=? 0 then 1 else start in
  (start, last - start + 1).

(** The encoding of one codepoint: a first byte followed by exactly the
    continuation bytes its high bits announce. *)
Definition is_codepoint (c : bytes) : bool :=
  match c with
  | [] => false
  | b :: conts =>
      utf8proc_char_first_byte b
      && (utf8proc_char_length b =? size c)
      && forallb (fun x => negb (utf8proc_char_first_byte x)) conts
  end.

(** A text as the sequence of its codepoints, each kept as its bytes; the
    buffer holding it is [concat]. *)
Definition codepoints := list bytes.

Definition well_formed (cps : codepoints) : bool := forallb is_codepoint cps.

(** The codepoints of a buffer: from its start, each first byte announces
    how many bytes its codepoint takes.  A buffer of [fuel] bytes holds at
    most [fuel] codepoints. *)
Fixpoint split_codepoints (fuel : nat) (s : bytes) : codepoints :=
  match fuel with
  | O => []
  | S fuel' =>
      match s with
      | [] => []
      | b :: _ =>
          let n := Z.to_nat (utf8proc_char_length b) in
          firstn n s :: split_codepoints fuel' (skipn n s)
      end
  end.

Definition codepoints_of (s : bytes) : codepoints :=
  split_codepoints (length s) s.

(** Well-formed text: every codepoint is complete and continuation bytes
    occur only inside codepoints.  Valid UTF-8 is well-formed. *)
Definition well_formed_utf8 (s : bytes) : bool := well_formed (codepoints_of s).

(** The membership test of [call]: the bytes [c] occur in the trim string. *)
Definition occurs_in (trimStr c : bytes) : bool :=
  negb (sv_find trimStr c 0 =? npos).

(** An ASCII buffer as codepoints: one single-byte codepoint per byte. *)
Definition single_bytes (s : bytes) : codepoints := map (fun b => [b]) s.

(** Membership in a trim set: equality of byte sequences. *)
Definition in_set (trimSet : codepoints) (c : bytes) : bool :=
  existsb (bytes_eqb c) trimSet.

Fixpoint drop_while {A : Type} (f : A -> bool) (l : list A) : list A :=
  match l with
  | [] => []
  | x :: l' => if f x then drop_while f l' else l
  end.

Fixpoint take_while {A : Type} (f : A -> bool) (l : list A) : list A :=
  match l with
  | [] => []
  | x :: l' => if f x then x :: take_while f l' else []
  end.

(** Removal of the leading, resp. trailing, elements satisfying [f], up to
    the first one that does not. *)
Definition trim_left {A : Type} (on : bool) (f : A -> bool) (l : list A) :=
  if on then drop_while f l else l.

Definition trim_right {A : Type} (on : bool) (f : A -> bool) (l : list A) :=
  if on then rev (drop_while f (rev l)) else l.

(* ================================================================== *)
(** ** The examples of the specification *)

Example substring_index_ex1 :
  bytes_of (bs "a.b.c") (SubstringIndexFunction_call (bs "a.b.c") (bs ".") 2)
  = bs "a.b".
Proof. vm_compute. reflexivity. Qed.

Example substring_index_ex2 :
  bytes_of (bs "a.b.c") (SubstringIndexFunction_call (bs "a.b.c") (bs ".") (-2))
  = bs "b.c".
Proof. vm_compute. reflexivity. Qed.

Example substring_index_ex3 :
  bytes_of (bs "a.b.c") (SubstringIndexFunction_call (bs "a.b.c") (bs ".") 5)
  = bs "a.b.c".
Proof. vm_compute. reflexivity. Qed.

Example contains_ex :
  ContainsFunction_call (bs "hello world") (bs "lo w") = true
  /\ StartsWithFunction_call (bs "hello") (bs "he") = Some true
  /\ EndsWithFunction_call (bs "hello") (bs "lo") = Some true
  /\ EndsWithFunction_call (bs "lo") (bs "hello") = Some false.
Proof. vm_compute. repeat split. Qed.

Example substr_ex :
  let hw := bs "Hello world" in
  bytes_of hw (SubstrFunction_call hw 1 5) = bs "Hello"
  /\ bytes_of hw (SubstrFunction_call2 hw (-5)) = bs "world"
  /\ bytes_of (bs "Hello") (SubstrFunction_call (bs "Hello") 0 3) = bs "Hel"
  /\ bytes_of hw (SubstrFunction_callAscii hw (-5) 3) = bs "wor".
Proof. vm_compute. repeat split. Qed.

(** The window is clamped at the end before a non-positive start becomes
    1: [start = -10] in a text of 5 is position [-4], so [length = 7]
    reaches position 2 only. *)
Example substr_order_ex :
  bytes_of (bs "Hello") (SubstrFunction_call (bs "Hello") (-10) 7) = bs "He".
Proof. vm_compute. reflexivity. Qed.

Example substr_multibyte_ex :
  bytes_of multibyte (SubstrFunction_call multibyte 2 1) = [xe2; x82; xac]
  /\ stringImpl_length false multibyte = 3.
Proof. vm_compute. repeat split. Qed.

Example trim_ex :
  bytes_of (bs " abc ") (TrimFunction_call (bs " ") (bs " abc ")) = bs "abc"
  /\ bytes_of (bs "xyabcyx") (TrimFunction_call (bs "xy") (bs "xyabcyx"))
     = bs "abc"
  /\ bytes_of (bs "xyabcyx") (TrimFunction_callAscii (bs "xy") (bs "xyabcyx"))
     = bs "abc"
  /\ bytes_of (bs "xyabcyx") (LTrimFunction_call (bs "xy") (bs "xyabcyx"))
     = bs "abcyx"
  /\ bytes_of (bs "xyabcyx") (RTrimFunction_callAscii (bs "xy") (bs "xyabcyx"))
     = bs "xyabc"
  /\ bytes_of (bs "abc") (LTrimFunction_call [] (bs "abc")) = bs "abc".
Proof. vm_compute. repeat split. Qed.

Example trim_multibyte_ex :
  bytes_of multibyte (TrimFunction_call [xf0; x9f; x98; x80; xc3; xa9] multibyte)
  = [xe2; x82; xac].
Proof. vm_compute. reflexivity. Qed.

(* ================================================================== *)
(** ** Integers and sizes *)

Lemma wrap32_id (x : Z) : in_int32 x -> wrap32 x = x.
Proof.
  unfold in_int32, wrap32, INT32_MIN, INT32_MAX. intros H.
  rewrite Z.mod_small; lia.
Qed.

Lemma wrap64_id (x : Z) : 0 <= x < 2 ^ 64 -> wrap64 x = x.
Proof. unfold wrap64. intros H. now apply Z.mod_small. Qed.

Lemma size_nonneg (s : bytes) : 0 <= size s.
Proof. unfold size. lia. Qed.

Lemma size_app (a b : bytes) : size (a ++ b) = size a + size b.
Proof. unfold size. rewrite length_app. lia. Qed.

Lemma size_cons (x : byte) (a : bytes) : size (x :: a) = 1 + size a.
Proof. unfold size. simpl List.length. lia. Qed.

Lemma size_nil : size [] = 0.
Proof. reflexivity. Qed.

Lemma empty_false_iff (s : bytes) : empty s = false <-> s <> [].
Proof.
  unfold empty, size. destruct s; simpl List.length; split; intros H;
    try congruence.
  - now rewrite Z.eqb_refl in H.
  - apply Z.eqb_neq. lia.
Qed.

Lemma sv_make_whole (s : bytes) : sv_make s 0 (size s) = s.
Proof.
  unfold sv_make, size. simpl. rewrite Nat2Z.id. apply firstn_all.
Qed.

Lemma sv_make_prefix (s : bytes) (n : nat) :
  sv_make s 0 (Z.of_nat n) = firstn n s.
Proof. unfold sv_make. simpl. now rewrite Nat2Z.id. Qed.

(** Boolean comparisons in hypotheses, as propositions. *)
Ltac zb :=
  repeat match goal with
  | H : (_ <? _) = true |- _ => apply Z.ltb_lt in H
  | H : (_ <? _) = false |- _ => apply Z.ltb_ge in H
  | H : (_ <=? _) = true |- _ => apply Z.leb_le in H
  | H : (_ <=? _) = false |- _ => apply Z.leb_gt in H
  | H : (_ =? _) = true |- _ => apply Z.eqb_eq in H
  | H : (_ =? _) = false |- _ => apply Z.eqb_neq in H
  end.

(* ================================================================== *)
(** ** CodepointIndexer: bounds *)

Lemma char_length_bounds (b : byte) : 1 <= utf8proc_char_length b <= 4.
Proof.
  unfold utf8proc_char_length.
  repeat match goal with |- context [if ?c then _ else _] => destruct c end; lia.
Qed.

Lemma count_codepoints_bounds (fuel : nat) (buf : bytes) (off : Z) :
  0 <= count_codepoints fuel buf off <= Z.of_nat fuel.
Proof.
  revert off. induction fuel as [|fuel IH]; intros off; cbn [count_codepoints].
  - lia.
  - destruct (off <? size buf); [|lia].
    specialize (IH (off + utf8proc_char_length (byte_at buf off))). lia.
Qed.

Lemma stringImpl_length_bounds (isAscii : bool) (s : bytes) :
  0 <= stringImpl_length isAscii s <= size s.
Proof.
  unfold stringImpl_length. destruct isAscii.
  - pose proof (size_nonneg s). lia.
  - apply count_codepoints_bounds.
Qed.

Lemma advance_bounds (buf : bytes) (n : nat) (off : Z) :
  0 <= off <= size buf -> off <= advance buf n off <= size buf.
Proof.
  revert off. induction n as [|n IH]; intros off H; cbn [advance].
  - lia.
  - destruct (Z.ltb_spec off (size buf)); [|lia].
    pose proof (char_length_bounds (byte_at buf off)).
    specialize (IH (Z.min (size buf) (off + utf8proc_char_length (byte_at buf off)))).
    lia.
Qed.

(* ================================================================== *)
(** ** BytewisePredicates *)

(** C9.  For every string [str], [contains(str, "")], [starts_with(str, "")]
    and [ends_with(str, "")] all return true: the empty pattern is a
    substring, a prefix and a suffix of every string, the empty one
    included. *)
Theorem empty_pattern_matches (str : bytes) :
  ContainsFunction_call str [] = true
  /\ StartsWithFunction_call str [] = Some true
  /\ EndsWithFunction_call str [] = Some true.
Proof.
  pose proof (size_nonneg str) as Hs.
  repeat split.
  - unfold ContainsFunction_call, sv_find.
    destruct (size str <? 0) eqn:E; [apply Z.ltb_lt in E; lia|].
    destruct str; reflexivity.
  - unfold StartsWithFunction_call, sv_substr. rewrite size_nil.
    destruct (size str <? 0) eqn:E; [apply Z.ltb_lt in E; lia|].
    simpl. rewrite Z.min_l by lia. reflexivity.
  - unfold EndsWithFunction_call, sv_substr. rewrite size_nil.
    destruct (size str <? 0) eqn:E; [apply Z.ltb_lt in E; lia|].
    assert (Hw : 0 <= wrap64 (size str - 0) <= size str).
    { unfold wrap64. rewrite Z.sub_0_r.
      pose proof (Z.mod_pos_bound (size str) (2 ^ 64) ltac:(lia)).
      pose proof (Z.mod_le (size str) (2 ^ 64) Hs ltac:(lia)). lia. }
    destruct (size str <? wrap64 (size str - 0)) eqn:E2;
      [apply Z.ltb_lt in E2; lia|].
    simpl. rewrite Z.min_l by lia. reflexivity.
Qed.

(* ================================================================== *)
(** ** SubstringExtractor *)

(** C5.  For every input string and every start value,
    [substr(s, start, length)] is the empty result whenever [length <= 0],
    on both entry points: the test comes first, before [start] is looked
    at, so the value of [start] (in or out of range) plays no part. *)
Theorem substr_nonpositive_length
  (isAscii : bool) (input : bytes) (start length : Z) :
  length <= 0 ->
  SubstrFunction_doCall isAscii input start length = setEmpty
  /\ bytes_of input (SubstrFunction_call input start length) = []
  /\ bytes_of input (SubstrFunction_callAscii input start length) = [].
Proof.
  intros H. apply Z.leb_le in H.
  unfold SubstrFunction_call, SubstrFunction_callAscii, SubstrFunction_doCall.
  rewrite H. repeat split.
Qed.

Lemma substr_nonpositive_length_witness :
  SubstrFunction_doCall false (bs "Hello") (-7) 0 = setEmpty
  /\ bytes_of (bs "Hello") (SubstrFunction_call (bs "Hello") (-7) 0) = []
  /\ bytes_of (bs "Hello") (SubstrFunction_callAscii (bs "Hello") (-7) 0) = [].
Proof.
  apply (substr_nonpositive_length false (bs "Hello") (-7) 0). lia.
Defined.

(** The code of [doCall] past its first test, with the wrap-around gone:
    on strings of the dialect no [int32_t] operation overflows, except the
    checked addition, and the window is the one of [substr_window]. *)
Lemma doCall_window (isAscii : bool) (input : bytes) (start length : Z) :
  spark_size input -> in_int32 start -> in_int32 length -> 0 < length ->
  SubstrFunction_doCall isAscii input start length
  = let w := substr_window (stringImpl_length isAscii input) start length in
    if snd w <=? 0 then setEmpty
    else
      let r := getByteRange isAscii input (fst w) (snd w) in
      setNoCopy (fst r) (snd r - fst r).
Proof.
  intros Hsz Hs Hl Hpos.
  unfold SubstrFunction_doCall, substr_window.
  destruct (length <=? 0) eqn:El; [zb; lia|].
  pose proof (stringImpl_length_bounds isAscii input) as HN.
  set (N := stringImpl_length isAscii input) in *.
  unfold spark_size in Hsz. unfold in_int32 in *.
  unfold INT32_MIN, INT32_MAX in *. zb.
  rewrite (wrap32_id N) by (unfold in_int32, INT32_MIN, INT32_MAX; lia).
  set (s1 := if start =? 0 then 1 else start).
  assert (Hs1 : - 2 ^ 31 <= s1 <= 2 ^ 31 - 1 /\ s1 <> 0).
  { subst s1. destruct (start =? 0) eqn:E; zb; lia. }
  clearbody s1.
  assert (Hs2 : (if s1 <? 0 then wrap32 (wrap32 (N + s1) + 1) else s1)
                = (if s1 <? 0 then N + s1 + 1 else s1)).
  { destruct (s1 <? 0) eqn:E; zb; [|reflexivity].
    rewrite (wrap32_id (N + s1)) by (unfold in_int32, INT32_MIN, INT32_MAX; lia).
    apply wrap32_id. unfold in_int32, INT32_MIN, INT32_MAX; lia. }
  rewrite Hs2. clear Hs2.
  set (s2 := if s1 <? 0 then N + s1 + 1 else s1).
  assert (Hs2 : - 2 ^ 31 < s2 <= 2 ^ 31 - 1).
  { subst s2. destruct (s1 <? 0) eqn:E; zb; lia. }
  clearbody s2.
  unfold add_overflow.
  rewrite (wrap32_id (length - 1)) by (unfold in_int32, INT32_MIN, INT32_MAX; lia).
  replace (s2 + (length - 1)) with (s2 + length - 1) by lia.
  set (sum := s2 + length - 1).
  assert (Hsum : - 2 ^ 31 < sum) by (subst sum; lia).
  unfold INT32_MIN, INT32_MAX.
  assert (Hlast :
    (if negb ((- 2 ^ 31 <=? sum) && (sum <=? 2 ^ 31 - 1)) || (N <? wrap32 sum)
     then N else wrap32 sum)
    = (if (sum <? - 2 ^ 31) || (2 ^ 31 - 1 <? sum) || (N <? sum)
       then N else sum)).
  { destruct (- 2 ^ 31 <=? sum) eqn:E1; zb; [|lia].
    destruct (sum <? - 2 ^ 31) eqn:E2; zb; [lia|].
    destruct (sum <=? 2 ^ 31 - 1) eqn:E3, (2 ^ 31 - 1 <? sum) eqn:E4; zb;
      try lia; simpl; [|reflexivity].
    rewrite (wrap32_id sum) by (unfold in_int32, INT32_MIN, INT32_MAX; lia).
    reflexivity. }
  rewrite Hlast. clear Hlast.
  set (last := if (sum <? - 2 ^ 31) || (2 ^ 31 - 1 <? sum) || (N <? sum)
               then N else sum).
  assert (Hlast : - 2 ^ 31 < last <= N /\ (s2 <= last \/ last = N)).
  { subst last.
    destruct ((sum <? - 2 ^ 31) || (2 ^ 31 - 1 <? sum) || (N <? sum)) eqn:E.
    - lia.
    - apply orb_false_iff in E. destruct E as [E E3].
      apply orb_false_iff in E. destruct E as [E1 E2]. zb. subst sum. lia. }
  clearbody last.
  set (s3 := if s2 <=? 0 then 1 else s2).
  assert (Hs3 : 1 <= s3 <= 2 ^ 31 - 1 /\ (s3 = s2 \/ (s2 <= 0 /\ s3 = 1))).
  { subst s3. destruct (s2 <=? 0) eqn:E; zb; lia. }
  clearbody s3.
  rewrite (wrap32_id (last - s3)) by (unfold in_int32, INT32_MIN, INT32_MAX; lia).
  rewrite (wrap32_id (last - s3 + 1)) by (unfold in_int32, INT32_MIN, INT32_MAX; lia).
  cbv zeta. cbn [fst snd].
  destruct (last - s3 + 1 <=? 0) eqn:E; [reflexivity|]. zb.
  f_equal. apply wrap64_id.
  unfold getByteRange. destruct isAscii; simpl fst; simpl snd.
  - lia.
  - pose proof (size_nonneg input).
    pose proof (advance_bounds input (Z.to_nat (s3 - 1)) 0 ltac:(lia)).
    pose proof (advance_bounds input (Z.to_nat (last - s3 + 1))
                  (advance input (Z.to_nat (s3 - 1)) 0) ltac:(lia)).
    lia.
Qed.

(** The window starts at 1 or later and ends inside the text. *)
Lemma substr_window_bounds (N start length : Z) :
  0 <= N -> 0 < length ->
  1 <= fst (substr_window N start length)
  /\ fst (substr_window N start length) + snd (substr_window N start length) - 1
     <= N.
Proof.
  intros HN Hl. unfold substr_window. cbv zeta. cbn [fst snd].
  repeat match goal with
         | |- context [if ?c then _ else _] => destruct c eqn:?
         end; zb; lia.
Qed.

(** C1.  For every input string, [start] and [length], [substr] computes
    what the rules of the spec compute in their order: a negative [start]
    is remapped to [numCodepoints + start + 1] first; then
    [last = start + length - 1] is formed by the overflow-checked addition
    and clamped to [numCodepoints] when the addition overflows or
    [last > numCodepoints]; only then a non-positive [start] becomes 1 and
    the length is recomputed as [last - start + 1].  None of the [int32_t]
    operations of the code wraps. *)
Theorem substr_follows_rules
  (isAscii : bool) (input : bytes) (start length : Z) :
  spark_size input -> in_int32 start -> in_int32 length ->
  SubstrFunction_doCall isAscii input start length
  = substr_rules isAscii input start length.
Proof.
  intros Hsz Hs Hl.
  destruct (Z.leb_spec length 0) as [Hle|Hpos].
  - unfold SubstrFunction_doCall, substr_rules.
    apply Z.leb_le in Hle. now rewrite Hle.
  - rewrite doCall_window by assumption.
    unfold substr_rules, substr_window.
    destruct (Z.leb_spec length 0); [lia|]. reflexivity.
Qed.

Lemma substr_follows_rules_witness :
  spark_size (bs "Hello world") /\ in_int32 (-5) /\ in_int32 3
  /\ SubstrFunction_doCall false (bs "Hello world") (-5) 3
     = substr_rules false (bs "Hello world") (-5) 3.
Proof.
  assert (H1 : spark_size (bs "Hello world")) by (vm_compute; discriminate).
  assert (H2 : in_int32 (-5)) by (unfold in_int32, INT32_MIN, INT32_MAX; lia).
  assert (H3 : in_int32 3) by (unfold in_int32, INT32_MIN, INT32_MAX; lia).
  split; [exact H1|]. split; [exact H2|]. split; [exact H3|].
  apply (substr_follows_rules false (bs "Hello world") (-5) 3 H1 H2 H3).
Defined.

(* ================================================================== *)
(** ** DelimiterSplitter *)

Lemma find_list_none (d s : bytes) :
  find_list d s = None ->
  forall k, (k <= List.length s)%nat -> prefixb d (skipn k s) = false.
Proof.
  induction s as [|x s IH]; cbn [find_list]; intros H k Hk.
  - destruct (prefixb d []) eqn:E; [discriminate|].
    simpl in Hk. assert (k = O) by lia. subst k. exact E.
  - destruct (prefixb d (x :: s)) eqn:E; [discriminate|].
    destruct (find_list d s) eqn:F; [discriminate|].
    destruct k as [|k]; [exact E|]. simpl in Hk. apply IH; [reflexivity|lia].
Qed.

Lemma find_list_some (d s : bytes) (k : nat) :
  find_list d s = Some k ->
  (k <= List.length s)%nat /\ prefixb d (skipn k s) = true
  /\ forall j, (j < k)%nat -> prefixb d (skipn j s) = false.
Proof.
  revert k. induction s as [|x s IH]; cbn [find_list]; intros k H.
  - destruct (prefixb d []) eqn:E; [|discriminate].
    injection H as <-. split; [simpl; lia|]. split; [exact E|intros j Hj; lia].
  - destruct (prefixb d (x :: s)) eqn:E.
    + injection H as <-. split; [simpl; lia|].
      split; [exact E|intros j Hj; lia].
    + destruct (find_list d s) as [k'|] eqn:F; [|discriminate].
      injection H as <-. destruct (IH k' eq_refl) as (H1 & H2 & H3).
      split; [simpl; lia|]. split; [exact H2|].
      intros [|j] Hj; [exact E|]. apply H3. lia.
Qed.

Lemma filter_seq_none (f : nat -> bool) (n i : nat) :
  (forall j, (i <= j < i + n)%nat -> f j = false) ->
  filter f (seq i n) = [].
Proof.
  revert i. induction n as [|n IH]; intros i H; [reflexivity|].
  cbn [seq filter]. rewrite (H i) by lia. apply IH. intros j Hj. apply H. lia.
Qed.

Lemma filter_seq_first (f : nat -> bool) (n i p : nat) :
  (i <= p < i + n)%nat ->
  (forall j, (i <= j < p)%nat -> f j = false) ->
  f p = true ->
  filter f (seq i n) = p :: filter f (seq (S p) (i + n - S p)).
Proof.
  revert i. induction n as [|n IH]; intros i Hp Hlt Hf; [lia|].
  cbn [seq filter]. destruct (Nat.eq_dec i p) as [->|Hne].
  - rewrite Hf. do 3 f_equal. lia.
  - rewrite (Hlt i) by lia. rewrite (IH (S i)); [do 3 f_equal; lia|lia| |exact Hf].
    intros j Hj. apply Hlt. lia.
Qed.

Lemma match_at_skipn (s d : bytes) (i k : nat) :
  (i + k <= List.length s)%nat ->
  match_at s d (i + k) = prefixb d (skipn k (skipn i s)).
Proof.
  intros H. unfold match_at. rewrite skipn_skipn.
  replace (k + i)%nat with (i + k)%nat by lia.
  destruct (Nat.leb_spec (i + k) (List.length s)); [reflexivity|lia].
Qed.

(** [find] from offset [i] returns the first occurrence at or after [i]. *)
Lemma sv_find_occ (s d : bytes) (i : nat) :
  size s < npos ->
  sv_find s d (Z.of_nat i)
  = match occ_from s d i with [] => npos | p :: _ => Z.of_nat p end.
Proof.
  intros Hsz. unfold sv_find, occ_from, size in *.
  destruct (Z.ltb_spec (Z.of_nat (List.length s)) (Z.of_nat i)) as [Hlt|Hle].
  - replace (S (List.length s) - i)%nat with O by lia. reflexivity.
  - rewrite Nat2Z.id.
    destruct (find_list d (skipn i s)) as [k|] eqn:F.
    + apply find_list_some in F. destruct F as (H1 & H2 & H3).
      rewrite length_skipn in H1.
      rewrite (filter_seq_first _ _ i (i + k)).
      * lia.
      * lia.
      * intros j Hj. replace j with (i + (j - i))%nat by lia.
        rewrite match_at_skipn by lia. apply H3. lia.
      * rewrite match_at_skipn by lia. exact H2.
    + rewrite filter_seq_none; [reflexivity|].
      intros j Hj. replace j with (i + (j - i))%nat by lia.
      rewrite match_at_skipn by lia.
      apply (find_list_none _ _ F). rewrite length_skipn. lia.
Qed.

Lemma occ_from_bound (s d : bytes) (i p : nat) :
  In p (occ_from s d i) -> (i <= p <= List.length s)%nat.
Proof.
  unfold occ_from. intros H. apply filter_In in H. destruct H as [H _].
  apply in_seq in H. lia.
Qed.

Lemma filter_seq_cons (f : nat -> bool) (n i p : nat) (rest : list nat) :
  filter f (seq i n) = p :: rest ->
  rest = filter f (seq (S p) (i + n - S p)) /\ (i <= p < i + n)%nat.
Proof.
  revert i. induction n as [|n IH]; intros i H; [discriminate|].
  cbn [seq filter] in H. destruct (f i).
  - injection H as <- <-. split; [do 2 f_equal; lia|lia].
  - apply IH in H. destruct H as [H1 H2]. split; [|lia].
    rewrite H1. do 2 f_equal. lia.
Qed.

Lemma occ_from_cons (s d : bytes) (i p : nat) (rest : list nat) :
  occ_from s d i = p :: rest ->
  rest = occ_from s d (S p) /\ (i <= p <= List.length s)%nat.
Proof.
  unfold occ_from. intros H. apply filter_seq_cons in H.
  destruct H as [H1 H2]. split; [|lia]. rewrite H1. do 2 f_equal. lia.
Qed.

Section FindLoop.

Variables (s d : bytes) (count : Z).
Hypothesis Hsz : view_size s.
Hypothesis Hcount : 0 < count <= INT32_MAX.

Lemma find_loop_occ (fuel : nat) (n : Z) (i : nat) :
  0 <= n < count ->
  (Z.to_nat (count - n) <= fuel)%nat ->
  find_loop s d count fuel n (Z.of_nat i)
  = match nth_error (occ_from s d i) (Z.to_nat (count - n - 1)) with
    | Some p => Z.of_nat p
    | None => npos
    end.
Proof.
  unfold view_size, UINT32_MAX, INT32_MAX in *.
  revert n i. induction fuel as [|fuel IH]; intros n i Hn Hf; [lia|].
  cbn [find_loop].
  destruct (Z.ltb_spec n count) as [_|]; [|lia].
  rewrite wrap32_id by (unfold in_int32, INT32_MIN, INT32_MAX; lia).
  rewrite sv_find_occ by (unfold npos; lia).
  destruct (occ_from s d i) as [|p rest] eqn:E.
  - rewrite Z.eqb_refl. now destruct (Z.to_nat (count - n - 1)).
  - apply occ_from_cons in E. destruct E as [-> Hp].
    unfold size in Hsz.
    destruct (Z.eqb_spec (Z.of_nat p) npos) as [Hc|_]; [unfold npos in Hc; lia|].
    destruct (Z.ltb_spec (n + 1) count) as [Hlt|Hge].
    + rewrite wrap64_id by lia.
      replace (Z.of_nat p + 1) with (Z.of_nat (S p)) by lia.
      rewrite IH by lia.
      replace (Z.to_nat (count - n - 1)) with (S (Z.to_nat (count - (n + 1) - 1)))
        by lia.
      reflexivity.
    + replace (Z.to_nat (count - n - 1)) with O by lia. cbn [nth_error].
      destruct fuel as [|fuel']; cbn [find_loop]; [reflexivity|].
      destruct (Z.ltb_spec (n + 1) count); [lia|reflexivity].
Qed.

Lemma substring_index_positive :
  SubstringIndexFunction_call s d count
  = match nth_error (occurrences s d) (Z.to_nat (count - 1)) with
    | Some p => setNoCopy 0 (Z.of_nat p)
    | None => setNoCopy 0 (size s)
    end.
Proof.
  assert (Hloop : find_loop s d count (Z.to_nat count) 0 0
                  = match nth_error (occurrences s d) (Z.to_nat (count - 1)) with
                    | Some p => Z.of_nat p
                    | None => npos
                    end).
  { change 0 with (Z.of_nat 0) at 2.
    rewrite (find_loop_occ (Z.to_nat count) 0 0) by lia.
    now rewrite Z.sub_0_r. }
  unfold SubstringIndexFunction_call.
  destruct (Z.eqb_spec count 0); [lia|].
  destruct (Z.ltb_spec 0 count); [|lia].
  cbv zeta. rewrite Hloop.
  destruct (nth_error (occurrences s d) (Z.to_nat (count - 1))) as [p|] eqn:E.
  - apply nth_error_In, occ_from_bound in E.
    unfold view_size, UINT32_MAX, size in Hsz.
    destruct (Z.eqb_spec (Z.of_nat p) npos) as [Hc|_]; [unfold npos in Hc; lia|].
    reflexivity.
  - rewrite Z.eqb_refl. reflexivity.
Qed.

End FindLoop.

Lemma occurrences_empty_delim (s : bytes) :
  occurrences s [] = seq 0 (S (List.length s)).
Proof.
  unfold occurrences. apply forallb_filter_id. apply forallb_forall.
  intros i Hi. apply in_seq in Hi. unfold match_at.
  destruct (Nat.leb_spec i (List.length s)); [reflexivity|lia].
Qed.

Lemma nth_error_seq (i n k : nat) :
  nth_error (seq i n) k = if (k <? n)%nat then Some (i + k)%nat else None.
Proof.
  revert i k. induction n as [|n IH]; intros i [|k]; cbn [seq nth_error].
  - reflexivity.
  - reflexivity.
  - change (0 <? S n)%nat with true. cbv iota. f_equal. lia.
  - rewrite IH. change (S k <? S n)%nat with (k <? n)%nat.
    destruct (k <? n)%nat; [f_equal; lia|reflexivity].
Qed.

(** C3.  For every input, delimiter and [count > 0]: when the delimiter
    occurs at least [count] times, [substring_index] returns the byte
    prefix of the input strictly before the start offset [p] of the
    [count]-th occurrence.  Occurrences are counted at every offset, one
    byte past the start of the previous one included, so overlapping
    matches count (see [occurrences]).  The delimiter need not be
    non-empty for this. *)
Theorem substring_index_count_th (str delim : bytes) (count : Z) (p : nat) :
  view_size str ->
  0 < count <= INT32_MAX ->
  nth_error (occurrences str delim) (Z.to_nat (count - 1)) = Some p ->
  SubstringIndexFunction_call str delim count = setNoCopy 0 (Z.of_nat p)
  /\ bytes_of str (SubstringIndexFunction_call str delim count) = firstn p str.
Proof.
  intros Hsz Hc Hp. rewrite substring_index_positive by assumption.
  rewrite Hp. split; [reflexivity|]. apply sv_make_prefix.
Qed.

(** C10.  For every string and every [count > 0], [substring_index] with
    the empty delimiter returns the byte prefix of length
    [min (count - 1) (size str)]; in particular the empty string when
    [count = 1]. *)
Theorem substring_index_empty_delim (str : bytes) (count : Z) :
  view_size str ->
  0 < count <= INT32_MAX ->
  SubstringIndexFunction_call str [] count
  = setNoCopy 0 (Z.min (count - 1) (size str))
  /\ bytes_of str (SubstringIndexFunction_call str [] count)
     = firstn (Z.to_nat (Z.min (count - 1) (size str))) str.
Proof.
  intros Hsz Hc. rewrite substring_index_positive by assumption.
  rewrite occurrences_empty_delim, nth_error_seq. unfold size.
  destruct (Nat.ltb_spec (Z.to_nat (count - 1)) (S (List.length str))).
  - rewrite Z.min_l by lia. cbn [Nat.add]. rewrite Z2Nat.id by lia.
    split; [reflexivity|]. unfold bytes_of, sv_make. reflexivity.
  - rewrite Z.min_r by lia. split; [reflexivity|].
    unfold bytes_of, sv_make. reflexivity.
Qed.

Lemma substring_index_count_th_witness :
  view_size (bs "aaa") /\ 0 < 2 <= INT32_MAX
  /\ nth_error (occurrences (bs "aaa") (bs "aa")) (Z.to_nat (2 - 1)) = Some 1%nat
  /\ SubstringIndexFunction_call (bs "aaa") (bs "aa") 2
     = setNoCopy 0 (Z.of_nat 1)
  /\ bytes_of (bs "aaa") (SubstringIndexFunction_call (bs "aaa") (bs "aa") 2)
     = firstn 1 (bs "aaa").
Proof.
  assert (H1 : view_size (bs "aaa")) by (vm_compute; discriminate).
  assert (H2 : 0 < 2 <= INT32_MAX) by (unfold INT32_MAX; lia).
  assert (H3 : nth_error (occurrences (bs "aaa") (bs "aa")) (Z.to_nat (2 - 1))
               = Some 1%nat) by reflexivity.
  split; [exact H1|]. split; [exact H2|]. split; [exact H3|].
  exact (substring_index_count_th (bs "aaa") (bs "aa") 2 1 H1 H2 H3).
Defined.

Lemma substring_index_empty_delim_witness :
  view_size (bs "abc") /\ 0 < 1 <= INT32_MAX
  /\ SubstringIndexFunction_call (bs "abc") [] 1
     = setNoCopy 0 (Z.min (1 - 1) (size (bs "abc")))
  /\ bytes_of (bs "abc") (SubstringIndexFunction_call (bs "abc") [] 1)
     = firstn (Z.to_nat (Z.min (1 - 1) (size (bs "abc")))) (bs "abc").
Proof.
  assert (H1 : view_size (bs "abc")) by (vm_compute; discriminate).
  assert (H2 : 0 < 1 <= INT32_MAX) by (unfold INT32_MAX; lia).
  split; [exact H1|]. split; [exact H2|].
  exact (substring_index_empty_delim (bs "abc") 1 H1 H2).
Defined.

(** C6.  The specification: with fewer than [|count|] occurrences of the
    delimiter the whole input comes back, for positive and for negative
    [count].  For [count < 0] the code does not do so
    when an occurrence sits at offset 0: [index--] takes [index] from 0 to
    [npos], [rfind] from [npos] searches the whole string again, and the
    occurrences are counted a second time.  ["a"] holds one ["a"], yet
    [count = -2] yields the empty string; [".b.c"] holds two ["."], yet
    [count = -3] yields ["c"]. *)
Theorem substring_index_negative_recount :
  List.length (occurrences (bs "a") (bs "a")) = 1%nat
  /\ SubstringIndexFunction_call (bs "a") (bs "a") (-2) = setNoCopy 1 0
  /\ bytes_of (bs "a") (SubstringIndexFunction_call (bs "a") (bs "a") (-2))
     = []
  /\ List.length (occurrences (bs ".b.c") (bs ".")) = 2%nat
  /\ bytes_of (bs ".b.c")
       (SubstringIndexFunction_call (bs ".b.c") (bs ".") (-3))
     = bs "c".
Proof. vm_compute. repeat split. Qed.

(** C8.  The specification: every result view lies inside the input
    buffer, [0 <= offset] and [offset + length <= size].  At
    [count = INT32_MIN] the negation [-count] overflows [int32_t]; with
    the wrapped value [INT32_MIN] the loop body never runs, [index] keeps
    its initial value [strLen - 1], and the view starts at
    [index + delimLen], past the end of the buffer when the delimiter has
    two bytes or more. *)
Theorem substring_index_int_min_out_of_bounds :
  SubstringIndexFunction_call (bs "ab") (bs "xyz") INT32_MIN
  = setNoCopy 4 (2 ^ 64 - 2)
  /\ in_bounds (bs "ab")
       (SubstringIndexFunction_call (bs "ab") (bs "xyz") INT32_MIN) = false.
Proof. vm_compute. split; reflexivity. Qed.

(* ================================================================== *)
(** ** SubstringExtractor: the full range and the ASCII entry point *)

(** Counting the codepoints from [off] and then advancing by that many
    lands on the end of the buffer. *)
Lemma advance_count (buf : bytes) (fuel : nat) (off : Z) :
  0 <= off -> size buf - off <= Z.of_nat fuel ->
  advance buf (Z.to_nat (count_codepoints fuel buf off)) (Z.min (size buf) off)
  = size buf.
Proof.
  revert off. induction fuel as [|fuel IH]; intros off H0 Hf;
    cbn [count_codepoints].
  - cbn [Z.to_nat advance]. lia.
  - destruct (Z.ltb_spec off (size buf)) as [Hlt|Hge].
    + pose proof (char_length_bounds (byte_at buf off)) as Hc.
      pose proof (count_codepoints_bounds fuel buf
                    (off + utf8proc_char_length (byte_at buf off))) as Hb.
      replace (Z.to_nat (1 + count_codepoints fuel buf
                             (off + utf8proc_char_length (byte_at buf off))))
        with (S (Z.to_nat (count_codepoints fuel buf
                             (off + utf8proc_char_length (byte_at buf off)))))
        by lia.
      cbn [advance]. rewrite (Z.min_r _ off) by lia.
      destruct (Z.ltb_spec off (size buf)); [|lia].
      apply IH; lia.
    + cbn [Z.to_nat advance]. lia.
Qed.

(** C7.  For every string [s] of the dialect, [substr(s, 1, n)] with [n]
    the codepoint count of [s] returns [s] itself, on the general entry
    point and on the ASCII one (where the count is the byte count).  The
    empty string is included: its result is the empty marker. *)
Theorem substr_full_range (s : bytes) :
  spark_size s ->
  bytes_of s (SubstrFunction_call s 1 (stringImpl_length false s)) = s
  /\ bytes_of s (SubstrFunction_callAscii s 1 (stringImpl_length true s)) = s.
Proof.
  intros Hsz.
  assert (Hwin : forall N, 1 <= N <= INT32_MAX -> substr_window N 1 N = (1, N)).
  { intros N HN. unfold substr_window, INT32_MIN, INT32_MAX in *. cbv zeta.
    change (1 =? 0) with false. cbv iota.
    change (1 <? 0) with false. cbv iota.
    change (1 <=? 0) with false. cbv iota.
    replace (1 + N - 1) with N by lia.
    destruct (Z.ltb_spec N (- 2 ^ 31)); [lia|].
    destruct (Z.ltb_spec (2 ^ 31 - 1) N); [lia|].
    destruct (Z.ltb_spec N N); [lia|].
    cbn [orb]. f_equal. lia. }
  assert (Hall : forall isAscii,
    bytes_of s (SubstrFunction_doCall isAscii s 1 (stringImpl_length isAscii s))
    = s).
  { intros isAscii.
    pose proof (stringImpl_length_bounds isAscii s) as HN.
    unfold spark_size in Hsz.
    destruct (Z.leb_spec (stringImpl_length isAscii s) 0) as [Hle|Hpos].
    - assert (Hnil : s = []).
      { assert (H0 : stringImpl_length isAscii s = 0) by lia.
        destruct s as [|x s']; [reflexivity|exfalso].
        unfold stringImpl_length in H0. destruct isAscii.
        + rewrite size_cons in H0. pose proof (size_nonneg s'). lia.
        + cbn [List.length count_codepoints] in H0.
          rewrite size_cons in H0. pose proof (size_nonneg s').
          destruct (Z.ltb_spec 0 (1 + size s')); [|lia].
          pose proof (count_codepoints_bounds (List.length s') (x :: s')
                        (0 + utf8proc_char_length (byte_at (x :: s') 0))).
          lia. }
      subst s. unfold SubstrFunction_doCall.
      apply Z.leb_le in Hle. rewrite Hle. reflexivity.
    - rewrite doCall_window;
        try exact Hsz; try (unfold in_int32, INT32_MIN, INT32_MAX in *; lia).
      rewrite Hwin by lia. cbv zeta. cbn [fst snd].
      destruct (Z.leb_spec (stringImpl_length isAscii s) 0); [lia|].
      unfold getByteRange. destruct isAscii; cbn [fst snd bytes_of].
      + unfold stringImpl_length.
        replace (1 + size s - 1 - (1 - 1)) with (size s) by lia.
        change (1 - 1) with 0. apply sv_make_whole.
      + change (Z.to_nat (1 - 1)) with O. cbn [advance].
        unfold stringImpl_length.
        pose proof (advance_count s (List.length s) 0 ltac:(lia)
                      ltac:(unfold size; lia)) as Ha.
        rewrite Z.min_r in Ha by apply size_nonneg.
        rewrite Ha, Z.sub_0_r. apply sv_make_whole. }
  split; [apply (Hall false)|apply (Hall true)].
Qed.

Lemma substr_full_range_witness :
  spark_size multibyte
  /\ bytes_of multibyte
       (SubstrFunction_call multibyte 1 (stringImpl_length false multibyte))
     = multibyte
  /\ bytes_of multibyte
       (SubstrFunction_callAscii multibyte 1
          (stringImpl_length true multibyte))
     = multibyte.
Proof.
  assert (H1 : spark_size multibyte) by (vm_compute; discriminate).
  split; [exact H1|]. exact (substr_full_range multibyte H1).
Defined.

(** *** The ASCII entry point *)

Lemma ascii_char_length (b : byte) :
  is_ascii b = true -> utf8proc_char_length b = 1.
Proof.
  unfold is_ascii, utf8proc_char_length. intros H. now rewrite H.
Qed.

Lemma ascii_first_byte (b : byte) :
  is_ascii b = true -> utf8proc_char_first_byte b = true.
Proof. destruct b; vm_compute; intros H; congruence. Qed.

Lemma byte_at_In (s : bytes) (off : Z) :
  0 <= off < size s -> In (byte_at s off) s.
Proof.
  intros H. unfold byte_at. apply nth_In. unfold size in H. lia.
Qed.

Lemma ascii_byte_at (s : bytes) (off : Z) :
  forallb is_ascii s = true -> 0 <= off < size s ->
  is_ascii (byte_at s off) = true.
Proof.
  intros Ha H. rewrite forallb_forall in Ha. apply Ha. now apply byte_at_In.
Qed.

Lemma count_codepoints_ascii (s : bytes) (fuel : nat) (off : Z) :
  forallb is_ascii s = true ->
  0 <= off <= size s -> size s - off <= Z.of_nat fuel ->
  count_codepoints fuel s off = size s - off.
Proof.
  intros Ha. revert off. induction fuel as [|fuel IH]; intros off H Hf;
    cbn [count_codepoints].
  - lia.
  - destruct (Z.ltb_spec off (size s)); [|lia].
    rewrite ascii_char_length by (apply ascii_byte_at; [assumption|lia]).
    rewrite IH by lia. lia.
Qed.

Lemma advance_ascii (s : bytes) (n : nat) (off : Z) :
  forallb is_ascii s = true ->
  0 <= off -> off + Z.of_nat n <= size s ->
  advance s n off = off + Z.of_nat n.
Proof.
  intros Ha. revert off. induction n as [|n IH]; intros off H Hn;
    cbn [advance].
  - lia.
  - destruct (Z.ltb_spec off (size s)); [|lia].
    rewrite ascii_char_length by (apply ascii_byte_at; [assumption|lia]).
    rewrite Z.min_r by lia. rewrite IH by lia. lia.
Qed.

Lemma stringImpl_length_ascii (s : bytes) :
  forallb is_ascii s = true ->
  stringImpl_length false s = stringImpl_length true s.
Proof.
  intros Ha. unfold stringImpl_length.
  pose proof (size_nonneg s).
  rewrite count_codepoints_ascii; try assumption; unfold size in *; lia.
Qed.

Lemma substr_ascii_entry (input : bytes) (start length : Z) :
  forallb is_ascii input = true ->
  spark_size input -> in_int32 start -> in_int32 length ->
  SubstrFunction_callAscii input start length
  = SubstrFunction_call input start length.
Proof.
  intros Ha Hsz Hs Hl.
  unfold SubstrFunction_callAscii, SubstrFunction_call.
  destruct (Z.leb_spec length 0) as [Hle|Hpos].
  - unfold SubstrFunction_doCall. apply Z.leb_le in Hle. now rewrite Hle.
  - rewrite !doCall_window by assumption.
    rewrite (stringImpl_length_ascii input Ha).
    pose proof (stringImpl_length_bounds true input) as HN.
    pose proof (substr_window_bounds (stringImpl_length true input) start length
                  ltac:(lia) Hpos) as Hw.
    destruct (substr_window (stringImpl_length true input) start length)
      as [st len].
    cbv zeta. cbn [fst snd] in *.
    destruct (Z.leb_spec len 0) as [|Hlen]; [reflexivity|].
    unfold getByteRange. cbn [fst snd].
    unfold stringImpl_length in Hw, HN.
    rewrite (advance_ascii input (Z.to_nat (st - 1)) 0) by (try assumption; lia).
    rewrite (advance_ascii input (Z.to_nat len)) by (try assumption; lia).
    f_equal; lia.
Qed.

(* ================================================================== *)
(** ** TrimEngine *)

Lemma byte_at_app (pre rest : bytes) (b : byte) :
  byte_at (pre ++ b :: rest) (size pre) = b.
Proof.
  unfold byte_at, size. rewrite Nat2Z.id.
  rewrite app_nth2 by lia. now rewrite Nat.sub_diag.
Qed.

Lemma sv_make_app (pre c rest : bytes) :
  sv_make (pre ++ c ++ rest) (size pre) (size c) = c.
Proof.
  unfold sv_make, size. rewrite !Nat2Z.id.
  rewrite skipn_app, skipn_all, Nat.sub_diag. cbn [skipn app].
  rewrite firstn_app, firstn_all, Nat.sub_diag. cbn [firstn].
  apply app_nil_r.
Qed.

Lemma is_codepoint_inv (c : bytes) :
  is_codepoint c = true ->
  exists b conts,
    c = b :: conts
    /\ utf8proc_char_first_byte b = true
    /\ utf8proc_char_length b = size c
    /\ forallb (fun x => negb (utf8proc_char_first_byte x)) conts = true.
Proof.
  destruct c as [|b conts]; [discriminate|]. cbn [is_codepoint].
  intros H. apply andb_true_iff in H. destruct H as [H H3].
  apply andb_true_iff in H. destruct H as [H1 H2]. apply Z.eqb_eq in H2.
  now exists b, conts.
Qed.

Section TrimLoops.

Variable trimStr : bytes.

Lemma ltrim_loop_spec (todo : codepoints) :
  well_formed todo = true ->
  forall (pre : bytes) (fuel : nat),
    size (concat todo) <= Z.of_nat fuel ->
    ltrim_loop trimStr (pre ++ concat todo) fuel (size pre)
    = size pre + size (concat (take_while (occurs_in trimStr) todo)).
Proof.
  induction todo as [|c todo IH]; intros Hwf pre fuel Hf.
  - cbn [concat take_while]. rewrite app_nil_r, size_nil, Z.add_0_r.
    destruct fuel; cbn [ltrim_loop]; [reflexivity|].
    now rewrite Z.ltb_irrefl.
  - cbn [well_formed forallb] in Hwf. apply andb_true_iff in Hwf.
    destruct Hwf as [Hc Hwf].
    destruct (is_codepoint_inv c Hc) as (b & conts & -> & Hb & Hlen & Hconts).
    cbn [concat] in *. rewrite size_app, size_cons in Hf.
    pose proof (size_nonneg conts). pose proof (size_nonneg (concat todo)).
    destruct fuel as [|fuel]; [lia|]. cbn [ltrim_loop].
    rewrite !size_app, size_cons.
    destruct (Z.ltb_spec (size pre) (size pre + (1 + size conts + size (concat todo))));
      [|lia].
    assert (Hbyte : byte_at (pre ++ (b :: conts) ++ concat todo) (size pre) = b)
      by apply (byte_at_app pre (conts ++ concat todo) b).
    rewrite !Hbyte, !Hlen, sv_make_app.
    cbn [take_while].
    replace (sv_find trimStr (b :: conts) 0 =? npos)
      with (negb (occurs_in trimStr (b :: conts)))
      by (unfold occurs_in; apply negb_involutive).
    destruct (occurs_in trimStr (b :: conts)); cbn [negb].
    + rewrite <- size_app.
      replace (pre ++ (b :: conts) ++ concat todo)
        with ((pre ++ b :: conts) ++ concat todo) by now rewrite <- app_assoc.
      rewrite (IH Hwf) by lia.
      cbn [concat]. rewrite !size_app. lia.
    + cbn [concat]. rewrite size_nil. lia.
Qed.

Lemma rtrim_walk (front conts post : bytes) (b : byte) (rb re : Z) :
  forallb (fun x => negb (utf8proc_char_first_byte x)) conts = true ->
  rb <= size front ->
  forall (j fuel : nat),
    (j <= length conts)%nat ->
    rtrim_loop trimStr (front ++ (b :: conts) ++ post) (j + fuel) rb
      (size front + Z.of_nat j) re
    = rtrim_loop trimStr (front ++ (b :: conts) ++ post) fuel rb
        (size front) re.
Proof.
  intros Hconts Hrb. induction j as [|j IH]; intros fuel Hj.
  - cbn [Nat.add]. now rewrite Z.add_0_r.
  - cbn [Nat.add rtrim_loop].
    pose proof (size_nonneg front).
    destruct (Z.leb_spec rb (size front + Z.of_nat (S j))); [|lia].
    assert (Hbyte : byte_at (front ++ (b :: conts) ++ post)
                      (size front + Z.of_nat (S j)) = nth j conts x00).
    { unfold byte_at, size.
      replace (Z.to_nat (Z.of_nat (length front) + Z.of_nat (S j)))
        with (length front + S j)%nat by lia.
      rewrite app_nth2_plus. cbn [app nth]. apply app_nth1. lia. }
    rewrite Hbyte.
    assert (Hnf : utf8proc_char_first_byte (nth j conts x00) = false).
    { rewrite forallb_forall in Hconts.
      apply negb_true_iff, Hconts, nth_In. lia. }
    rewrite Hnf.
    replace (size front + Z.of_nat (S j) - 1) with (size front + Z.of_nat j)
      by lia.
    apply IH. lia.
Qed.

Lemma rtrim_loop_spec (mids : codepoints) :
  well_formed mids = true ->
  forall (pre post : bytes) (fuel : nat),
    size (concat mids) <= Z.of_nat fuel ->
    rtrim_loop trimStr (pre ++ concat mids ++ post) fuel (size pre)
      (size pre + size (concat mids) - 1) (size pre + size (concat mids))
    = size pre
      + size (concat (rev (drop_while (occurs_in trimStr) (rev mids)))).
Proof.
  induction mids as [|c mids IH] using rev_ind; intros Hwf pre post fuel Hf.
  - cbn [rev drop_while concat]. rewrite size_nil.
    destruct fuel; cbn [rtrim_loop]; [reflexivity|].
    destruct (Z.leb_spec (size pre) (size pre + 0 - 1)); [lia|reflexivity].
  - unfold well_formed in Hwf. rewrite forallb_app in Hwf.
    apply andb_true_iff in Hwf. destruct Hwf as [Hwf Hc].
    cbn [forallb] in Hc. rewrite andb_true_r in Hc.
    destruct (is_codepoint_inv c Hc) as (b & conts & -> & Hb & Hlen & Hconts).
    rewrite rev_unit. cbn [drop_while].
    rewrite concat_app in *. cbn [concat] in *. rewrite app_nil_r in *.
    rewrite size_app, size_cons in *.
    pose proof (size_nonneg conts). pose proof (size_nonneg (concat mids)).
    pose proof (size_nonneg pre).
    replace (pre ++ (concat mids ++ b :: conts) ++ post)
      with ((pre ++ concat mids) ++ (b :: conts) ++ post)
      by (rewrite <- !app_assoc; reflexivity).
    set (front := pre ++ concat mids).
    assert (Hfront : size front = size pre + size (concat mids))
      by (subst front; apply size_app).
    replace fuel
      with (length conts + S (fuel - length conts - 1))%nat
      by (unfold size in *; lia).
    replace (size pre + (size (concat mids) + (1 + size conts)) - 1)
      with (size front + Z.of_nat (length conts)) by (unfold size in *; lia).
    rewrite rtrim_walk by (try assumption; lia).
    cbn [rtrim_loop].
    destruct (Z.leb_spec (size pre) (size front)); [|lia].
    assert (Hbyte : byte_at (front ++ (b :: conts) ++ post) (size front) = b)
      by apply (byte_at_app front (conts ++ post) b).
    rewrite Hbyte, Hb.
    replace (size pre + (size (concat mids) + (1 + size conts)) - size front)
      with (size (b :: conts)) by (rewrite size_cons; lia).
    rewrite sv_make_app.
    replace (sv_find trimStr (b :: conts) 0 =? npos)
      with (negb (occurs_in trimStr (b :: conts)))
      by (unfold occurs_in; apply negb_involutive).
    destruct (occurs_in trimStr (b :: conts)); cbn [negb].
    + subst front. rewrite <- app_assoc.
      rewrite Hfront.
      apply (IH Hwf pre ((b :: conts) ++ post)).
      unfold size in *. lia.
    + rewrite <- rev_unit, rev_involutive, concat_app. cbn [concat].
      rewrite app_nil_r, size_app, size_cons. lia.
Qed.

End TrimLoops.

Lemma take_drop_while {A : Type} (f : A -> bool) (l : list A) :
  take_while f l ++ drop_while f l = l.
Proof.
  induction l as [|x l IH]; [reflexivity|]. cbn [take_while drop_while].
  destruct (f x); [cbn [app]; now rewrite IH|reflexivity].
Qed.

Lemma trim_right_prefix {A : Type} (on : bool) (f : A -> bool) (l : list A) :
  exists rest, l = trim_right on f l ++ rest.
Proof.
  destruct on; cbn [trim_right].
  - exists (rev (take_while f (rev l))).
    rewrite <- rev_app_distr, take_drop_while. now rewrite rev_involutive.
  - exists []. now rewrite app_nil_r.
Qed.

Lemma trim_left_suffix {A : Type} (on : bool) (f : A -> bool) (l : list A) :
  exists front, l = front ++ trim_left on f l
                /\ front = if on then take_while f l else [].
Proof.
  destruct on; cbn [trim_left].
  - exists (take_while f l). now rewrite take_drop_while.
  - now exists [].
Qed.

Lemma well_formed_app (a b : codepoints) :
  well_formed (a ++ b) = well_formed a && well_formed b.
Proof. apply forallb_app. Qed.

Lemma well_formed_concat_nil (cps : codepoints) :
  well_formed cps = true -> concat cps = [] -> cps = [].
Proof.
  destruct cps as [|c cps]; [reflexivity|]. cbn [well_formed forallb concat].
  intros H E. apply andb_true_iff in H. destruct H as [H _].
  destruct c; [discriminate|discriminate].
Qed.

(** What [call] returns on a buffer given by its codepoints. *)
Lemma call_codepoints (leftTrim rightTrim : bool) (trimStr : bytes)
  (cps : codepoints) :
  trimStr <> [] -> well_formed cps = true -> cps <> [] ->
  let kept_left := trim_left leftTrim (occurs_in trimStr) cps in
  let kept := trim_right rightTrim (occurs_in trimStr) kept_left in
  TrimFunctionBase_call leftTrim rightTrim trimStr (concat cps)
  = setNoCopy (size (concat cps) - size (concat kept_left))
      (size (concat kept)).
Proof.
  intros Ht Hwf Hne kept_left kept.
  unfold TrimFunctionBase_call.
  assert (He : empty (concat cps) = false).
  { apply empty_false_iff. intros E. apply Hne.
    now apply well_formed_concat_nil. }
  rewrite He. apply empty_false_iff in Ht. rewrite Ht.
  destruct (trim_left_suffix leftTrim (occurs_in trimStr) cps)
    as (front & Hsplit & Hfront).
  fold kept_left in Hsplit.
  assert (Hwf2 : well_formed front = true /\ well_formed kept_left = true).
  { rewrite Hsplit, well_formed_app in Hwf. now apply andb_true_iff in Hwf. }
  destruct Hwf2 as [Hwf1 Hwf2].
  assert (Hbegin :
    (if leftTrim then ltrim_loop trimStr (concat cps) (length (concat cps)) 0
     else 0) = size (concat front)).
  { destruct leftTrim.
    - change (concat cps) with ([] ++ concat cps).
      change 0 with (size []).
      rewrite (ltrim_loop_spec trimStr cps Hwf [])
        by (cbn [app]; unfold size; lia).
      rewrite Hfront, size_nil. lia.
    - now rewrite Hfront. }
  cbv zeta. rewrite Hbegin.
  assert (Hs : concat cps = concat front ++ concat kept_left ++ [])
    by (rewrite app_nil_r, <- concat_app; now f_equal).
  assert (Hsize : size (concat cps)
                  = size (concat front) + size (concat kept_left))
    by (rewrite Hs, app_nil_r; apply size_app).
  assert (Hend :
    (if rightTrim
     then rtrim_loop trimStr (concat cps) (length (concat cps))
            (size (concat front)) (size (concat cps) - 1) (size (concat cps))
     else size (concat cps))
    = size (concat front) + size (concat kept)).
  { subst kept. destruct rightTrim; cbn [trim_right].
    - rewrite Hsize.
      remember (length (concat cps)) as fuel eqn:Hfuel.
      rewrite Hs.
      apply (rtrim_loop_spec trimStr kept_left Hwf2).
      pose proof (size_nonneg (concat front)).
      unfold size in *. lia.
    - exact Hsize. }
  rewrite Hend. f_equal; lia.
Qed.

Lemma call_codepoints_bytes (leftTrim rightTrim : bool) (trimStr : bytes)
  (cps : codepoints) :
  trimStr <> [] -> well_formed cps = true ->
  bytes_of (concat cps)
    (TrimFunctionBase_call leftTrim rightTrim trimStr (concat cps))
  = concat (trim_right rightTrim (occurs_in trimStr)
              (trim_left leftTrim (occurs_in trimStr) cps))
  /\ in_bounds (concat cps)
       (TrimFunctionBase_call leftTrim rightTrim trimStr (concat cps)) = true.
Proof.
  intros Ht Hwf. destruct cps as [|c0 cps0] eqn:Ecps.
  - destruct leftTrim, rightTrim; split; reflexivity.
  - rewrite <- Ecps in *.
    rewrite call_codepoints by (try assumption; rewrite Ecps; discriminate).
    set (kept_left := trim_left leftTrim (occurs_in trimStr) cps).
    destruct (trim_left_suffix leftTrim (occurs_in trimStr) cps)
      as (front & Hsplit & _).
    fold kept_left in Hsplit.
    destruct (trim_right_prefix rightTrim (occurs_in trimStr) kept_left)
      as (rest & Hrest).
    set (kept := trim_right rightTrim (occurs_in trimStr) kept_left) in *.
    assert (Hs : concat cps = concat front ++ concat kept ++ concat rest)
      by (rewrite <- !concat_app; f_equal;
          etransitivity; [exact Hsplit|f_equal; exact Hrest]).
    assert (Hl : concat kept_left = concat kept ++ concat rest)
      by (rewrite <- concat_app; f_equal; exact Hrest).
    assert (Hoff : size (concat cps) - size (concat kept_left)
                   = size (concat front)).
    { rewrite Hs, Hl, !size_app. lia. }
    rewrite Hoff. cbn [bytes_of in_bounds]. split.
    + rewrite Hs. apply sv_make_app.
    + rewrite Hs, !size_app.
      pose proof (size_nonneg (concat front)).
      pose proof (size_nonneg (concat kept)).
      pose proof (size_nonneg (concat rest)).
      apply andb_true_iff. split; [apply andb_true_iff; split|];
        apply Z.leb_le; lia.
Qed.

Lemma bytes_eqb_eq (a b : bytes) : bytes_eqb a b = true <-> a = b.
Proof.
  revert b. induction a as [|x a IH]; intros [|y b]; cbn [bytes_eqb];
    split; intros H; try discriminate; try reflexivity.
  - apply andb_true_iff in H. destruct H as [H1 H2].
    apply Byte.byte_dec_bl in H1. apply IH in H2. now subst.
  - injection H as -> ->. apply andb_true_iff. split.
    + now apply Byte.byte_dec_lb.
    + now apply IH.
Qed.

Lemma prefixb_iff (d s : bytes) :
  prefixb d s = true <-> exists post, s = d ++ post.
Proof.
  revert s. induction d as [|x d IH]; intros s; cbn [prefixb].
  - split; [intros _; now exists s|reflexivity].
  - destruct s as [|y s].
    + split; [discriminate|intros [post H]; discriminate].
    + split.
      * intros H. apply andb_true_iff in H. destruct H as [H1 H2].
        apply Byte.byte_dec_bl in H1. apply IH in H2. destruct H2 as [post ->].
        subst. now exists post.
      * intros [post H]. injection H as -> ->. apply andb_true_iff. split.
        -- now apply Byte.byte_dec_lb.
        -- apply IH. now exists post.
Qed.

Lemma find_list_iff (d s : bytes) :
  find_list d s <> None <-> exists pre post, s = pre ++ d ++ post.
Proof.
  split.
  - destruct (find_list d s) as [k|] eqn:F; [intros _|congruence].
    apply find_list_some in F. destruct F as (_ & F & _).
    apply prefixb_iff in F. destruct F as [post F].
    exists (firstn k s), post. now rewrite <- F, firstn_skipn.
  - intros (pre & post & ->) F.
    pose proof (find_list_none _ _ F (length pre)) as H.
    rewrite skipn_app, skipn_all, Nat.sub_diag in H. cbn [skipn app] in H.
    assert (Hp : prefixb d (d ++ post) = true)
      by (apply prefixb_iff; now exists post).
    rewrite H in Hp; [discriminate|]. rewrite length_app. lia.
Qed.

Lemma occurs_in_iff (t c : bytes) :
  size t < npos ->
  occurs_in t c = true <-> exists pre post, t = pre ++ c ++ post.
Proof.
  intros Hsz. rewrite <- find_list_iff. unfold occurs_in, sv_find.
  pose proof (size_nonneg t).
  destruct (Z.ltb_spec (size t) 0); [lia|]. cbn [Z.to_nat skipn].
  destruct (find_list c t) as [k|] eqn:F.
  - apply find_list_some in F. destruct F as (F & _).
    unfold size in Hsz.
    destruct (Z.eqb_spec (0 + Z.of_nat k) npos); [lia|].
    split; [congruence|reflexivity].
  - rewrite Z.eqb_refl. split; [discriminate|congruence].
Qed.

Lemma skip_continuation (conts R pre X : bytes) (b : byte) :
  forallb (fun x => negb (utf8proc_char_first_byte x)) conts = true ->
  utf8proc_char_first_byte b = true ->
  conts ++ R = pre ++ b :: X ->
  exists pre', pre = conts ++ pre' /\ R = pre' ++ b :: X.
Proof.
  intros Hc Hb. revert pre. induction conts as [|x conts IH]; intros pre E.
  - now exists pre.
  - cbn [forallb] in Hc. apply andb_true_iff in Hc. destruct Hc as [Hx Hc].
    destruct pre as [|y pre]; cbn [app] in E.
    + injection E as -> _. rewrite Hb in Hx. discriminate.
    + injection E as -> E. destruct (IH Hc pre E) as (pre' & -> & HR).
      now exists pre'.
Qed.

Lemma codepoint_in_concat (tcps : codepoints) (c : bytes) :
  well_formed tcps = true -> is_codepoint c = true ->
  forall pre post, concat tcps = pre ++ c ++ post -> In c tcps.
Proof.
  intros Hwf Hc.
  destruct (is_codepoint_inv c Hc) as (b & conts & -> & Hb & Hlen & Hconts).
  induction tcps as [|t1 tcps IH]; intros pre post E.
  - destruct pre; discriminate.
  - cbn [well_formed forallb] in Hwf. apply andb_true_iff in Hwf.
    destruct Hwf as [Ht1 Hwf].
    destruct (is_codepoint_inv t1 Ht1) as (b1 & c1 & -> & Hb1 & Hlen1 & Hc1).
    cbn [concat] in E. destruct pre as [|p pre]; cbn [app] in E.
    + injection E as -> E. left.
      rewrite Hlen, !size_cons in Hlen1. f_equal.
      assert (Hl : length c1 = length conts) by (unfold size in Hlen1; lia).
      apply (f_equal (firstn (length c1))) in E.
      rewrite firstn_app, firstn_all, Nat.sub_diag in E. cbn [firstn] in E.
      rewrite app_nil_r in E. rewrite E, Hl.
      rewrite firstn_app, firstn_all, Nat.sub_diag. cbn [firstn].
      apply app_nil_r.
    + injection E as -> E. right.
      destruct (skip_continuation c1 (concat tcps) pre (conts ++ post) b
                  Hc1 Hb E) as (pre' & _ & HR).
      apply (IH Hwf pre' post). exact HR.
Qed.

Lemma in_set_iff (tcps : codepoints) (c : bytes) :
  in_set tcps c = true <-> In c tcps.
Proof.
  unfold in_set. rewrite existsb_exists. split.
  - intros (x & Hx & E). apply bytes_eqb_eq in E. now subst.
  - intros H. exists c. split; [assumption|now apply bytes_eqb_eq].
Qed.

(** On well-formed text the substring search of [call] is membership in
    the trim set. *)
Lemma occurs_in_set (tcps : codepoints) (c : bytes) :
  well_formed tcps = true -> is_codepoint c = true ->
  size (concat tcps) < npos ->
  occurs_in (concat tcps) c = in_set tcps c.
Proof.
  intros Hwf Hc Hsz. apply eq_true_iff_eq.
  rewrite occurs_in_iff by assumption. rewrite in_set_iff. split.
  - intros (pre & post & E). now apply (codepoint_in_concat tcps c Hwf Hc pre post).
  - intros H. apply in_split in H. destruct H as (l1 & l2 & ->).
    exists (concat l1), (concat l2). rewrite concat_app. reflexivity.
Qed.

Lemma drop_while_ext {A : Type} (f g : A -> bool) (l : list A) :
  (forall x, In x l -> f x = g x) -> drop_while f l = drop_while g l.
Proof.
  induction l as [|x l IH]; intros H; [reflexivity|]. cbn [drop_while].
  rewrite <- (H x) by now left. destruct (f x); [|reflexivity].
  apply IH. intros y Hy. apply H. now right.
Qed.

Lemma drop_while_incl {A : Type} (f : A -> bool) (l : list A) (x : A) :
  In x (drop_while f l) -> In x l.
Proof.
  induction l as [|y l IH]; [easy|]. cbn [drop_while].
  destruct (f y); [intros H; right; now apply IH|easy].
Qed.

Lemma trim_ext {A : Type} (lt rt : bool) (f g : A -> bool) (l : list A) :
  (forall x, In x l -> f x = g x) ->
  trim_right rt f (trim_left lt f l) = trim_right rt g (trim_left lt g l).
Proof.
  intros H.
  assert (Hl : trim_left lt f l = trim_left lt g l)
    by (destruct lt; cbn [trim_left]; [now apply drop_while_ext|reflexivity]).
  rewrite <- Hl.
  assert (Hin : forall x, In x (trim_left lt f l) -> f x = g x).
  { intros x Hx. apply H. destruct lt; cbn [trim_left] in Hx;
      [now apply drop_while_incl in Hx|assumption]. }
  destruct rt; cbn [trim_right]; [|reflexivity].
  f_equal. apply drop_while_ext. intros x Hx. apply Hin. now apply in_rev.
Qed.

(** On well-formed sequences of codepoints [call] removes the leading
    and/or trailing codepoints that are in the trim set. *)
Lemma trim_codepoints
  (leftTrim rightTrim : bool) (trimSet input : codepoints) :
  well_formed trimSet = true -> well_formed input = true ->
  view_size (concat trimSet) ->
  bytes_of (concat input)
    (TrimFunctionBase_call leftTrim rightTrim (concat trimSet) (concat input))
  = concat (trim_right rightTrim (in_set trimSet)
              (trim_left leftTrim (in_set trimSet) input)).
Proof.
  intros Hset Hin Hsz.
  assert (Hext : forall c, In c input ->
            occurs_in (concat trimSet) c = in_set trimSet c).
  { intros c Hc. apply occurs_in_set; try assumption.
    - unfold well_formed in Hin. rewrite forallb_forall in Hin. now apply Hin.
    - unfold view_size, UINT32_MAX, npos in *. lia. }
  destruct trimSet as [|t0 trimSet'] eqn:Eset.
  - (* the empty trim set: the input comes back as it is *)
    cbn [concat]. unfold TrimFunctionBase_call. change (empty []) with true.
    assert (Hid : trim_right rightTrim (in_set []) (trim_left leftTrim (in_set []) input)
                  = input).
    { assert (Hd : forall l : codepoints, drop_while (in_set []) l = l)
        by (intros [|x l]; reflexivity).
      destruct leftTrim, rightTrim; cbn [trim_left trim_right];
        rewrite ?Hd, ?rev_involutive; reflexivity. }
    rewrite Hid.
    destruct (empty (concat input)) eqn:E.
    + unfold empty in E. apply Z.eqb_eq in E. cbn [bytes_of].
      destruct (concat input) as [|x rest]; [reflexivity|].
      rewrite size_cons in E. pose proof (size_nonneg rest). lia.
    + apply sv_make_whole.
  - rewrite <- Eset in *.
    assert (Hne : concat trimSet <> []).
    { intros E. apply well_formed_concat_nil in E; [|assumption].
      rewrite Eset in E. discriminate. }
    rewrite (proj1 (call_codepoints_bytes leftTrim rightTrim (concat trimSet)
                      input Hne Hin)).
    f_equal. now apply trim_ext.
Qed.

Lemma concat_split_codepoints (fuel : nat) (s : bytes) :
  (length s <= fuel)%nat -> concat (split_codepoints fuel s) = s.
Proof.
  revert s. induction fuel as [|fuel IH]; intros s Hf.
  - destruct s; [reflexivity|simpl in Hf; lia].
  - destruct s as [|b s]; [reflexivity|]. cbn [split_codepoints concat].
    pose proof (char_length_bounds b) as Hb.
    rewrite IH; [apply firstn_skipn|].
    rewrite length_skipn. cbn [length] in *. lia.
Qed.

Lemma concat_codepoints_of (s : bytes) : concat (codepoints_of s) = s.
Proof. apply concat_split_codepoints. lia. Qed.

(** A well-formed sequence of codepoints is what its buffer splits into. *)
Lemma split_codepoints_concat (cps : codepoints) :
  well_formed cps = true ->
  forall fuel, (length cps <= fuel)%nat ->
    split_codepoints fuel (concat cps) = cps.
Proof.
  induction cps as [|c cps IH]; intros Hwf fuel Hf.
  - destruct fuel; reflexivity.
  - cbn [well_formed forallb] in Hwf. apply andb_true_iff in Hwf.
    destruct Hwf as [Hc Hwf].
    destruct (is_codepoint_inv c Hc) as (b & conts & -> & _ & Hlen & _).
    cbn [length] in Hf. destruct fuel as [|fuel]; [lia|].
    cbn [concat app split_codepoints].
    rewrite Hlen. unfold size. rewrite Nat2Z.id.
    change (b :: conts ++ concat cps) with ((b :: conts) ++ concat cps).
    rewrite firstn_app, firstn_all, Nat.sub_diag. cbn [firstn].
    rewrite app_nil_r.
    rewrite skipn_app, skipn_all, Nat.sub_diag. cbn [skipn app].
    f_equal. apply IH; [assumption|lia].
Qed.

(** C2.  For every trim string and every input, both well-formed, the
    general-form [trim] ([ltrim], [rtrim]) returns the input without its
    leading and/or trailing codepoints that are equal, as byte sequences,
    to some codepoint of the trim string; each scan stops at the first
    codepoint that is not in the set.  Membership is equality of byte
    sequences ([in_set]); no scalar value is decoded.  The empty trim
    string is included: nothing is removed. *)
Theorem trim_removes_set_codepoints
  (leftTrim rightTrim : bool) (trimStr srcStr : bytes) :
  well_formed_utf8 trimStr = true -> well_formed_utf8 srcStr = true ->
  view_size trimStr ->
  let trimSet := codepoints_of trimStr in
  bytes_of srcStr (TrimFunctionBase_call leftTrim rightTrim trimStr srcStr)
  = concat (trim_right rightTrim (in_set trimSet)
              (trim_left leftTrim (in_set trimSet) (codepoints_of srcStr))).
Proof.
  intros Ht Hs Hsz trimSet. subst trimSet.
  rewrite <- (concat_codepoints_of trimStr) in Hsz |- * at 1.
  rewrite <- (concat_codepoints_of srcStr) at 1 2.
  now apply trim_codepoints.
Qed.

Lemma trim_removes_set_codepoints_witness :
  let trimStr := [xf0; x9f; x98; x80; xc3; xa9] in
  well_formed_utf8 trimStr = true /\ well_formed_utf8 multibyte = true
  /\ view_size trimStr
  /\ bytes_of multibyte (TrimFunctionBase_call true true trimStr multibyte)
     = concat (trim_right true (in_set (codepoints_of trimStr))
                 (trim_left true (in_set (codepoints_of trimStr))
                    (codepoints_of multibyte))).
Proof.
  intros trimStr.
  assert (H1 : well_formed_utf8 trimStr = true) by reflexivity.
  assert (H2 : well_formed_utf8 multibyte = true) by reflexivity.
  assert (H3 : view_size trimStr) by (vm_compute; discriminate).
  split; [exact H1|]. split; [exact H2|]. split; [exact H3|].
  exact (trim_removes_set_codepoints true true trimStr multibyte H1 H2 H3).
Defined.

(** *** The ASCII entry point of the TrimEngine *)

Lemma first_not_of_spec (set s : bytes) :
  first_not_of set s
  = match drop_while (byte_in set) s with
    | [] => None
    | _ :: _ => Some (length (take_while (byte_in set) s))
    end.
Proof.
  induction s as [|b s IH]; [reflexivity|].
  cbn [first_not_of drop_while take_while].
  destruct (byte_in set b); [|reflexivity].
  rewrite IH. now destruct (drop_while (byte_in set) s).
Qed.

Lemma size_take_drop {A : Type} (f : A -> bool) (l : list A) :
  length l = (length (take_while f l) + length (drop_while f l))%nat.
Proof. now rewrite <- length_app, take_drop_while. Qed.

(** What [callAscii] returns: the bytes left after removing the leading
    and trailing bytes that occur in the trim string. *)
Lemma callAscii_bytes (leftTrim rightTrim : bool) (trimStr srcStr : bytes) :
  trimStr <> [] -> view_size srcStr ->
  bytes_of srcStr
    (TrimFunctionBase_callAscii leftTrim rightTrim trimStr srcStr)
  = trim_right rightTrim (byte_in trimStr)
      (trim_left leftTrim (byte_in trimStr) srcStr)
  /\ in_bounds srcStr
       (TrimFunctionBase_callAscii leftTrim rightTrim trimStr srcStr) = true.
Proof.
  intros Ht Hsz. unfold TrimFunctionBase_callAscii.
  set (f := byte_in trimStr).
  destruct (empty srcStr) eqn:Es.
  { unfold empty in Es. apply Z.eqb_eq in Es.
    destruct srcStr as [|x rest];
      [destruct leftTrim, rightTrim; split; reflexivity|].
    rewrite size_cons in Es. pose proof (size_nonneg rest). lia. }
  apply empty_false_iff in Ht. rewrite Ht. cbv zeta.
  destruct (trim_left_suffix leftTrim f srcStr) as (front & Hsplit & Hfront).
  set (kl := trim_left leftTrim f srcStr) in *.
  unfold view_size, UINT32_MAX in Hsz.
  pose proof (size_nonneg front) as Hf0. pose proof (size_nonneg kl) as Hk0.
  assert (Hsize : size srcStr = size front + size kl)
    by (rewrite Hsplit at 1; apply size_app).
  (* the left scan *)
  assert (Hleft :
    (leftTrim = true /\ kl = []
     /\ sv_find_first_not_of srcStr trimStr = npos)
    \/ ((if leftTrim then sv_find_first_not_of srcStr trimStr else 0)
        = size front
        /\ (leftTrim = true -> kl <> []))).
  { destruct leftTrim; [|right; rewrite Hfront; split; [reflexivity|congruence]].
    unfold sv_find_first_not_of. rewrite first_not_of_spec.
    subst kl. cbn [trim_left] in *. fold f.
    destruct (drop_while f srcStr) eqn:Ed.
    - left. repeat split.
    - right. rewrite Hfront. split; [reflexivity|congruence]. }
  destruct Hleft as [(-> & Hnil & Hnpos)|[Hidx Hne]].
  { rewrite Hnpos, Z.eqb_refl. cbn [andb bytes_of in_bounds].
    rewrite Hnil. split; [|reflexivity].
    destruct rightTrim; reflexivity. }
  rewrite Hidx.
  assert (Hnot : (leftTrim && (size front =? npos)) = false).
  { destruct (Z.eqb_spec (size front) npos) as [E|_];
      [unfold npos in E; lia|apply andb_false_r]. }
  rewrite Hnot.
  rewrite (wrap64_id (size srcStr - size front)) by lia.
  replace (size srcStr - size front) with (size kl) by lia.
  assert (Hview : sv_make srcStr (size front) (size kl) = kl).
  { rewrite Hsplit at 1. rewrite <- (app_nil_r kl) at 1. apply sv_make_app. }
  rewrite Hview.
  destruct rightTrim; cbn [trim_right].
  - unfold sv_find_last_not_of. rewrite first_not_of_spec. fold f.
    pose proof (size_take_drop f (rev kl)) as Hlen. rewrite length_rev in Hlen.
    pose proof (take_drop_while f (rev kl)) as Hrev.
    destruct (drop_while f (rev kl)) as [|x dw] eqn:Ed.
    + rewrite Z.eqb_refl. split; reflexivity.
    + set (j := length (take_while f (rev kl))) in *.
      cbn [length] in Hlen.
      assert (Hj : 0 <= size kl - 1 - Z.of_nat j < size kl)
        by (unfold size; lia).
      destruct (Z.eqb_spec (size kl - 1 - Z.of_nat j) npos) as [E|_];
        [unfold npos in E; lia|].
      rewrite wrap64_id by lia.
      assert (Hkl : kl = rev (x :: dw) ++ rev (take_while f (rev kl))).
      { rewrite <- rev_app_distr, Hrev. now rewrite rev_involutive. }
      assert (Hsz2 : size kl - 1 - Z.of_nat j + 1 = size (rev (x :: dw))).
      { unfold size. rewrite length_rev. cbn [length]. lia. }
      rewrite Hsz2. cbn [bytes_of in_bounds]. split.
      * rewrite Hsplit at 1. rewrite Hkl at 1. apply sv_make_app.
      * rewrite Hsize.
        assert (size (rev (x :: dw)) <= size kl)
          by (unfold size in *; rewrite length_rev; cbn [length]; lia).
        pose proof (size_nonneg (rev (x :: dw))).
        apply andb_true_iff. split; [apply andb_true_iff; split|];
          apply Z.leb_le; lia.
  - cbn [bytes_of in_bounds]. split; [exact Hview|].
    apply andb_true_iff. split; [apply andb_true_iff; split|];
      apply Z.leb_le; lia.
Qed.

Lemma concat_single_bytes (s : bytes) : concat (single_bytes s) = s.
Proof.
  induction s as [|b s IH]; [reflexivity|].
  cbn [single_bytes map concat app]. f_equal. exact IH.
Qed.

Lemma well_formed_single_bytes (s : bytes) :
  forallb is_ascii s = true -> well_formed (single_bytes s) = true.
Proof.
  induction s as [|b s IH]; [reflexivity|].
  cbn [forallb single_bytes map well_formed]. intros H.
  apply andb_true_iff in H. destruct H as [Hb Hs].
  apply andb_true_iff. split; [|now apply IH].
  cbn [is_codepoint forallb].
  rewrite (ascii_first_byte b Hb), (ascii_char_length b Hb). reflexivity.
Qed.

Lemma byte_in_iff (set : bytes) (b : byte) :
  byte_in set b = true <-> In b set.
Proof.
  unfold byte_in. rewrite existsb_exists. split.
  - intros (x & Hx & E). apply Byte.byte_dec_bl in E. now subst.
  - intros H. exists b. split; [assumption|now apply Byte.byte_dec_lb].
Qed.

(** The substring search with a one-byte codepoint is membership of the
    byte in the trim string. *)
Lemma occurs_in_single (t : bytes) (b : byte) :
  size t < npos -> occurs_in t [b] = byte_in t b.
Proof.
  intros Hsz. apply eq_true_iff_eq.
  rewrite occurs_in_iff by assumption. rewrite byte_in_iff. split.
  - intros (pre & post & ->). apply in_or_app. right. now left.
  - intros H. apply in_split in H. destruct H as (l1 & l2 & ->).
    now exists l1, l2.
Qed.

Lemma drop_while_map {A B : Type} (h : A -> B) (g : B -> bool) (l : list A) :
  drop_while g (map h l) = map h (drop_while (fun x => g (h x)) l).
Proof.
  induction l as [|x l IH]; [reflexivity|]. cbn [map drop_while].
  destruct (g (h x)); [exact IH|reflexivity].
Qed.

Lemma trim_map {A B : Type} (lt rt : bool) (h : A -> B) (g : B -> bool)
  (l : list A) :
  trim_right rt g (trim_left lt g (map h l))
  = map h (trim_right rt (fun x => g (h x)) (trim_left lt (fun x => g (h x)) l)).
Proof.
  assert (Hl : trim_left lt g (map h l)
               = map h (trim_left lt (fun x => g (h x)) l))
    by (destruct lt; cbn [trim_left]; [apply drop_while_map|reflexivity]).
  rewrite Hl. destruct rt; cbn [trim_right]; [|reflexivity].
  now rewrite <- map_rev, drop_while_map, map_rev.
Qed.

(** On an ASCII buffer [call] removes the bytes that occur in the trim
    string, as [callAscii] does. *)
Lemma call_ascii_bytes (leftTrim rightTrim : bool) (trimStr srcStr : bytes) :
  forallb is_ascii srcStr = true -> trimStr <> [] -> view_size trimStr ->
  bytes_of srcStr (TrimFunctionBase_call leftTrim rightTrim trimStr srcStr)
  = trim_right rightTrim (byte_in trimStr)
      (trim_left leftTrim (byte_in trimStr) srcStr).
Proof.
  intros Ha Ht Hsz.
  pose proof (call_codepoints_bytes leftTrim rightTrim trimStr
                (single_bytes srcStr) Ht (well_formed_single_bytes _ Ha))
    as [Hb _].
  rewrite concat_single_bytes in Hb. rewrite Hb.
  unfold single_bytes. rewrite trim_map, concat_single_bytes.
  apply trim_ext. intros b _. apply occurs_in_single.
  unfold view_size, UINT32_MAX, npos in *. lia.
Qed.

(** C4.  For every input of single-byte (ASCII) codepoints and all
    argument values, the ASCII entry point and the general entry point of
    [substr] return the same view, and those of the general-form [trim],
    [ltrim] and [rtrim] (any [leftTrim], [rightTrim]) return the same
    bytes.  The trim string need not be ASCII. *)
Theorem ascii_entry_points
  (input trimStr : bytes) (start length : Z) (leftTrim rightTrim : bool) :
  forallb is_ascii input = true ->
  spark_size input -> view_size trimStr ->
  in_int32 start -> in_int32 length ->
  SubstrFunction_callAscii input start length
  = SubstrFunction_call input start length
  /\ bytes_of input
       (TrimFunctionBase_callAscii leftTrim rightTrim trimStr input)
     = bytes_of input
         (TrimFunctionBase_call leftTrim rightTrim trimStr input).
Proof.
  intros Ha Hsz Ht Hs Hl. split; [now apply substr_ascii_entry|].
  destruct trimStr as [|t0 trimStr'] eqn:Et.
  - reflexivity.
  - rewrite <- Et in *. assert (Hne : trimStr <> []) by (rewrite Et; discriminate).
    rewrite call_ascii_bytes by assumption.
    apply callAscii_bytes; [assumption|].
    unfold view_size, spark_size, UINT32_MAX, INT32_MAX in *. lia.
Qed.

Lemma ascii_entry_points_witness :
  forallb is_ascii (bs "xyabcyx") = true
  /\ spark_size (bs "xyabcyx") /\ view_size (bs "xy")
  /\ in_int32 (-5) /\ in_int32 3
  /\ SubstrFunction_callAscii (bs "xyabcyx") (-5) 3
     = SubstrFunction_call (bs "xyabcyx") (-5) 3
  /\ bytes_of (bs "xyabcyx")
       (TrimFunctionBase_callAscii true true (bs "xy") (bs "xyabcyx"))
     = bytes_of (bs "xyabcyx")
         (TrimFunctionBase_call true true (bs "xy") (bs "xyabcyx")).
Proof.
  assert (H1 : forallb is_ascii (bs "xyabcyx") = true) by reflexivity.
  assert (H2 : spark_size (bs "xyabcyx")) by (vm_compute; discriminate).
  assert (H3 : view_size (bs "xy")) by (vm_compute; discriminate).
  assert (H4 : in_int32 (-5)) by (unfold in_int32, INT32_MIN, INT32_MAX; lia).
  assert (H5 : in_int32 3) by (unfold in_int32, INT32_MIN, INT32_MAX; lia).
  split; [exact H1|]. split; [exact H2|]. split; [exact H3|].
  split; [exact H4|]. split; [exact H5|].
  exact (ascii_entry_points (bs "xyabcyx") (bs "xy") (-5) 3 true true
           H1 H2 H3 H4 H5).
Defined.

(* ================================================================== *)
(** ** Result views

    Every result is the empty marker or a view [setNoCopy] into the first
    argument: no function builds bytes of its own.  The lemmas below bound
    the views; for [substring_index] the bound needs [count] above
    [INT32_MIN], whose negation does not fit [int32_t]. *)

Lemma in_bounds_iff (input : bytes) (off n : Z) :
  in_bounds input (setNoCopy off n) = true
  <-> 0 <= off /\ 0 <= n /\ off + n <= size input.
Proof.
  cbn [in_bounds]. rewrite !andb_true_iff, !Z.leb_le. tauto.
Qed.

Lemma rfind_down_le (s d : bytes) (k j : nat) :
  rfind_down s d k = Some j -> (j <= k)%nat.
Proof.
  induction k as [|k IH]; cbn [rfind_down].
  - destruct (prefixb d (skipn 0 s)); [|discriminate].
    intros H. injection H as <-. lia.
  - destruct (prefixb d (skipn (S k) s)).
    + intros H. injection H as <-. lia.
    + intros H. apply IH in H. lia.
Qed.

(** [rfind] answers [npos] or the offset of a whole occurrence. *)
Lemma sv_rfind_range (s d : bytes) (pos : Z) :
  sv_rfind s d pos = npos
  \/ 0 <= sv_rfind s d pos /\ sv_rfind s d pos + size d <= size s.
Proof.
  unfold sv_rfind.
  destruct (Z.ltb_spec (size s) (size d)); [now left|].
  destruct (rfind_down s d (Z.to_nat (Z.min pos (size s - size d))))
    as [j|] eqn:E; [right|now left].
  apply rfind_down_le in E. lia.
Qed.

Section RfindLoop.

Variables (s d : bytes) (mcount : Z).
Hypothesis Hm : mcount <= INT32_MAX.

Lemma rfind_loop_range (fuel : nat) (n index : Z) :
  0 <= n < mcount -> mcount - n <= Z.of_nat fuel ->
  let r := rfind_loop s d mcount fuel n index in
  r = npos \/ 0 <= r /\ r + size d <= size s.
Proof.
  unfold INT32_MAX in Hm.
  revert n index. induction fuel as [|fuel IH]; intros n index Hn Hf; [lia|].
  cbn [rfind_loop].
  destruct (Z.ltb_spec n mcount); [|lia].
  rewrite wrap32_id by (unfold in_int32, INT32_MIN, INT32_MAX; lia).
  destruct (Z.eqb_spec (sv_rfind s d index) npos) as [E|E]; [now left|].
  destruct (Z.ltb_spec (n + 1) mcount).
  - apply IH; lia.
  - destruct (sv_rfind_range s d index) as [?|Hr]; [contradiction|].
    destruct fuel; cbn [rfind_loop]; [now right|].
    destruct (Z.ltb_spec (n + 1) mcount); [lia|now right].
Qed.

End RfindLoop.

Lemma substring_index_in_bounds (str delim : bytes) (count : Z) :
  view_size str -> INT32_MIN < count <= INT32_MAX ->
  in_bounds str (SubstringIndexFunction_call str delim count) = true.
Proof.
  intros Hsz Hc. pose proof (size_nonneg str) as Hs0.
  pose proof (size_nonneg delim) as Hd0.
  destruct (Z.ltb_spec 0 count) as [Hpos|Hneg].
  - rewrite substring_index_positive by (try assumption; lia).
    destruct (nth_error (occurrences str delim) (Z.to_nat (count - 1)))
      as [p|] eqn:E; apply in_bounds_iff.
    + apply nth_error_In, occ_from_bound in E. unfold size. lia.
    + lia.
  - unfold SubstringIndexFunction_call.
    destruct (Z.eqb_spec count 0); [reflexivity|].
    destruct (Z.ltb_spec 0 count); [lia|]. cbv zeta.
    unfold INT32_MIN, INT32_MAX in Hc.
    rewrite (wrap32_id (- count)) by (unfold in_int32, INT32_MIN, INT32_MAX; lia).
    pose proof (rfind_loop_range str delim (- count)
                  ltac:(unfold INT32_MAX; lia)
                  (Z.to_nat (- count)) 0 (wrap64 (size str - 1))
                  ltac:(lia) ltac:(lia)) as Hr.
    cbv zeta in Hr.
    set (r := rfind_loop str delim (- count) (Z.to_nat (- count)) 0
                (wrap64 (size str - 1))) in *.
    unfold view_size, UINT32_MAX in Hsz.
    destruct (Z.eqb_spec r npos); [apply in_bounds_iff; lia|].
    destruct Hr as [?|Hr]; [contradiction|].
    rewrite (wrap64_id (size str - r)) by lia.
    rewrite wrap64_id by lia.
    apply in_bounds_iff. lia.
Qed.

Lemma substr_in_bounds (isAscii : bool) (input : bytes) (start length : Z) :
  spark_size input -> in_int32 start -> in_int32 length ->
  in_bounds input (SubstrFunction_doCall isAscii input start length) = true.
Proof.
  intros Hsz Hs Hl.
  destruct (Z.leb_spec length 0) as [Hle|Hpos].
  - unfold SubstrFunction_doCall. apply Z.leb_le in Hle. now rewrite Hle.
  - rewrite doCall_window by assumption.
    pose proof (stringImpl_length_bounds isAscii input) as HN.
    pose proof (substr_window_bounds (stringImpl_length isAscii input)
                  start length ltac:(lia) Hpos) as Hw.
    destruct (substr_window (stringImpl_length isAscii input) start length)
      as [st len].
    cbv zeta. cbn [fst snd] in *.
    destruct (Z.leb_spec len 0) as [|Hlen]; [reflexivity|].
    pose proof (size_nonneg input).
    apply in_bounds_iff. unfold getByteRange.
    destruct isAscii; cbn [fst snd].
    + unfold stringImpl_length in *. lia.
    + pose proof (advance_bounds input (Z.to_nat (st - 1)) 0 ltac:(lia)).
      pose proof (advance_bounds input (Z.to_nat len)
                    (advance input (Z.to_nat (st - 1)) 0) ltac:(lia)).
      lia.
Qed.

Lemma trim_in_bounds (leftTrim rightTrim : bool) (trimStr srcStr : bytes) :
  well_formed_utf8 srcStr = true ->
  in_bounds srcStr
    (TrimFunctionBase_call leftTrim rightTrim trimStr srcStr) = true.
Proof.
  intros Hwf. destruct trimStr as [|t0 t'] eqn:Et.
  - unfold TrimFunctionBase_call. change (empty []) with true.
    destruct (empty srcStr); [reflexivity|].
    apply in_bounds_iff. pose proof (size_nonneg srcStr). lia.
  - rewrite <- Et. rewrite <- (concat_codepoints_of srcStr).
    apply call_codepoints_bytes; [|assumption].
    rewrite Et. discriminate.
Qed.

Lemma trim_ascii_in_bounds (leftTrim rightTrim : bool) (trimStr srcStr : bytes) :
  view_size srcStr ->
  in_bounds srcStr
    (TrimFunctionBase_callAscii leftTrim rightTrim trimStr srcStr) = true.
Proof.
  intros Hsz. destruct trimStr as [|t0 t'] eqn:Et.
  - unfold TrimFunctionBase_callAscii. change (empty []) with true.
    destruct (empty srcStr); [reflexivity|].
    apply in_bounds_iff. pose proof (size_nonneg srcStr). lia.
  - rewrite <- Et. apply callAscii_bytes; [|assumption].
    rewrite Et. discriminate.
Qed.

(* ================================================================== *)
(** ** BytewisePredicates: what the three predicates decide *)

Lemma firstn_eq_iff (d s : bytes) :
  (length d <= length s)%nat ->
  firstn (length d) s = d <-> exists post, s = d ++ post.
Proof.
  intros Hl. split.
  - intros H. exists (skipn (length d) s).
    rewrite <- H at 1. symmetry. apply firstn_skipn.
  - intros [post ->]. rewrite firstn_app, firstn_all, Nat.sub_diag.
    cbn [firstn]. apply app_nil_r.
Qed.

Lemma skipn_eq_iff (d s : bytes) :
  (length d <= length s)%nat ->
  skipn (length s - length d) s = d <-> exists pre, s = pre ++ d.
Proof.
  intros Hl. split.
  - intros H. exists (firstn (length s - length d) s).
    rewrite <- H at 2. symmetry. apply firstn_skipn.
  - intros [pre ->]. rewrite length_app.
    replace (length pre + length d - length d)%nat with (length pre) by lia.
    rewrite skipn_app, skipn_all, Nat.sub_diag. reflexivity.
Qed.

Lemma StartsWith_prefix (str pattern : bytes) :
  StartsWithFunction_call str pattern
  = Some (bytes_eqb (firstn (length pattern) str) pattern
          && (length pattern <=? length str)%nat).
Proof.
  unfold StartsWithFunction_call, sv_substr, size. cbv zeta.
  destruct (Z.ltb_spec (Z.of_nat (length str)) (Z.of_nat (length pattern))).
  - destruct (Nat.leb_spec (length pattern) (length str)); [lia|].
    now rewrite andb_false_r.
  - destruct (Nat.leb_spec (length pattern) (length str)); [|lia].
    destruct (Z.ltb_spec (Z.of_nat (length str)) 0); [lia|].
    cbn [option_map]. rewrite andb_true_r. unfold sv_make.
    rewrite Z.min_l by lia. rewrite Nat2Z.id. reflexivity.
Qed.

Lemma EndsWith_suffix (str pattern : bytes) :
  size str < 2 ^ 64 ->
  EndsWithFunction_call str pattern
  = Some (bytes_eqb (skipn (length str - length pattern) str) pattern
          && (length pattern <=? length str)%nat).
Proof.
  intros Hsz.
  unfold EndsWithFunction_call, sv_substr, size in *. cbv zeta.
  destruct (Z.ltb_spec (Z.of_nat (length str)) (Z.of_nat (length pattern))).
  - destruct (Nat.leb_spec (length pattern) (length str)); [lia|].
    now rewrite andb_false_r.
  - destruct (Nat.leb_spec (length pattern) (length str)); [|lia].
    rewrite wrap64_id by lia.
    destruct (Z.ltb_spec (Z.of_nat (length str))
                (Z.of_nat (length str) - Z.of_nat (length pattern))); [lia|].
    cbn [option_map]. rewrite andb_true_r. unfold sv_make.
    rewrite Z.min_l by lia.
    replace (Z.to_nat (Z.of_nat (length str) - Z.of_nat (length pattern)))
      with (length str - length pattern)%nat by lia.
    rewrite Nat2Z.id.
    rewrite firstn_all2; [reflexivity|]. rewrite length_skipn. lia.
Qed.

(** X1.  [contains(str, pattern)] is true exactly when the bytes of
    [pattern] occur contiguously somewhere in [str]. *)
Theorem contains_iff_infix (str pattern : bytes) :
  view_size str ->
  ContainsFunction_call str pattern = true
  <-> exists pre post, str = pre ++ pattern ++ post.
Proof.
  intros Hsz. apply (occurs_in_iff str pattern).
  unfold view_size, UINT32_MAX, npos in *. lia.
Qed.

(** X2.  [startsWith(str, pattern)] never throws, and it is true exactly
    when [str] begins with the bytes of [pattern]. *)
Theorem starts_with_iff_prefix (str pattern : bytes) :
  exists b, StartsWithFunction_call str pattern = Some b
            /\ (b = true <-> exists post, str = pattern ++ post).
Proof.
  rewrite StartsWith_prefix. eexists. split; [reflexivity|].
  rewrite andb_true_iff, bytes_eqb_eq, Nat.leb_le. split.
  - intros [H Hl]. now apply firstn_eq_iff.
  - intros [post ->]. rewrite length_app. split; [|lia].
    apply firstn_eq_iff; [rewrite length_app; lia|now exists post].
Qed.

(** X3.  [endsWith(str, pattern)] never throws, and it is true exactly
    when [str] ends with the bytes of [pattern]. *)
Theorem ends_with_iff_suffix (str pattern : bytes) :
  view_size str ->
  exists b, EndsWithFunction_call str pattern = Some b
            /\ (b = true <-> exists pre, str = pre ++ pattern).
Proof.
  intros Hsz. rewrite EndsWith_suffix
    by (unfold view_size, UINT32_MAX in Hsz; lia).
  eexists. split; [reflexivity|].
  rewrite andb_true_iff, bytes_eqb_eq, Nat.leb_le. split.
  - intros [H Hl]. now apply skipn_eq_iff.
  - intros [pre ->]. split; [|rewrite length_app; lia].
    apply skipn_eq_iff; [rewrite length_app; lia|now exists pre].
Qed.

(** X4.  Whenever [startsWith] or [endsWith] accepts a pattern, [contains]
    accepts it too. *)
Theorem prefix_or_suffix_is_contained (str pattern : bytes) :
  view_size str ->
  (StartsWithFunction_call str pattern = Some true
   \/ EndsWithFunction_call str pattern = Some true) ->
  ContainsFunction_call str pattern = true.
Proof.
  intros Hsz H.
  apply (occurs_in_iff str pattern);
    [unfold view_size, UINT32_MAX, npos in *; lia|].
  destruct H as [H|H].
  - rewrite StartsWith_prefix in H. injection H as H.
    rewrite andb_true_iff, bytes_eqb_eq, Nat.leb_le in H. destruct H as [H Hl].
    apply firstn_eq_iff in H; [|assumption]. destruct H as [post ->].
    now exists [], post.
  - rewrite EndsWith_suffix in H
      by (unfold view_size, UINT32_MAX in Hsz; lia).
    injection H as H.
    rewrite andb_true_iff, bytes_eqb_eq, Nat.leb_le in H. destruct H as [H Hl].
    apply skipn_eq_iff in H; [|assumption]. destruct H as [pre ->].
    exists pre, []. now rewrite app_nil_r.
Qed.

(** X5.  A pattern longer than the string is rejected by all three
    predicates. *)
Theorem longer_pattern_never_matches (str pattern : bytes) :
  view_size str -> size str < size pattern ->
  ContainsFunction_call str pattern = false
  /\ StartsWithFunction_call str pattern = Some false
  /\ EndsWithFunction_call str pattern = Some false.
Proof.
  intros Hsz Hlt. split; [|split].
  - apply not_true_iff_false. intros H.
    apply (occurs_in_iff str pattern) in H;
      [|unfold view_size, UINT32_MAX, npos in *; lia].
    destruct H as (pre & post & ->). rewrite !size_app in Hlt.
    pose proof (size_nonneg pre). pose proof (size_nonneg post). lia.
  - unfold StartsWithFunction_call. cbv zeta.
    apply Z.ltb_lt in Hlt. now rewrite Hlt.
  - unfold EndsWithFunction_call. cbv zeta.
    apply Z.ltb_lt in Hlt. now rewrite Hlt.
Qed.

(** X6.  [contains] orders strings: every string contains itself,
    containment is transitive, and two strings that contain each other
    are equal. *)
Theorem contains_preorder (a b c : bytes) :
  view_size a -> view_size b ->
  ContainsFunction_call a a = true
  /\ (ContainsFunction_call a b = true -> ContainsFunction_call b c = true ->
      ContainsFunction_call a c = true)
  /\ (ContainsFunction_call a b = true -> ContainsFunction_call b a = true ->
      a = b).
Proof.
  intros Ha Hb.
  assert (Ha' : size a < npos) by (unfold view_size, UINT32_MAX, npos in *; lia).
  assert (Hb' : size b < npos) by (unfold view_size, UINT32_MAX, npos in *; lia).
  split; [|split].
  - apply (occurs_in_iff a a Ha'). exists [], []. now rewrite app_nil_r.
  - intros H1 H2. apply (occurs_in_iff a b Ha') in H1.
    apply (occurs_in_iff b c Hb') in H2. apply (occurs_in_iff a c Ha').
    destruct H1 as (p1 & q1 & ->). destruct H2 as (p2 & q2 & ->).
    exists (p1 ++ p2), (q2 ++ q1). now rewrite <- !app_assoc.
  - intros H1 H2. apply (occurs_in_iff a b Ha') in H1.
    apply (occurs_in_iff b a Hb') in H2.
    destruct H1 as (p1 & q1 & E1). destruct H2 as (p2 & q2 & E2).
    assert (Hl : length a = length b).
    { apply (f_equal (@length byte)) in E1, E2.
      rewrite !length_app in E1, E2. lia. }
    apply (f_equal (@length byte)) in E1 as E1'.
    rewrite !length_app in E1'.
    assert (length p1 = 0 /\ length q1 = 0)%nat as [Hp Hq] by lia.
    destruct p1; [|discriminate]. destruct q1; [|discriminate].
    now rewrite app_nil_r in E1.
Qed.

Lemma contains_iff_infix_witness :
  view_size (bs "hello world")
  /\ (ContainsFunction_call (bs "hello world") (bs "lo w") = true
      <-> exists pre post, bs "hello world" = pre ++ bs "lo w" ++ post).
Proof.
  assert (H1 : view_size (bs "hello world")) by (vm_compute; discriminate).
  split; [exact H1|].
  exact (contains_iff_infix (bs "hello world") (bs "lo w") H1).
Defined.

Lemma ends_with_iff_suffix_witness :
  view_size (bs "hello")
  /\ exists b, EndsWithFunction_call (bs "hello") (bs "lo") = Some b
               /\ (b = true <-> exists pre, bs "hello" = pre ++ bs "lo").
Proof.
  assert (H1 : view_size (bs "hello")) by (vm_compute; discriminate).
  split; [exact H1|].
  exact (ends_with_iff_suffix (bs "hello") (bs "lo") H1).
Defined.

Lemma prefix_or_suffix_is_contained_witness :
  view_size (bs "hello")
  /\ (StartsWithFunction_call (bs "hello") (bs "he") = Some true
      \/ EndsWithFunction_call (bs "hello") (bs "he") = Some true)
  /\ ContainsFunction_call (bs "hello") (bs "he") = true.
Proof.
  assert (H1 : view_size (bs "hello")) by (vm_compute; discriminate).
  assert (H2 : StartsWithFunction_call (bs "hello") (bs "he") = Some true
               \/ EndsWithFunction_call (bs "hello") (bs "he") = Some true)
    by (left; reflexivity).
  split; [exact H1|]. split; [exact H2|].
  exact (prefix_or_suffix_is_contained (bs "hello") (bs "he") H1 H2).
Defined.

Lemma longer_pattern_never_matches_witness :
  view_size (bs "lo") /\ size (bs "lo") < size (bs "hello")
  /\ ContainsFunction_call (bs "lo") (bs "hello") = false
  /\ StartsWithFunction_call (bs "lo") (bs "hello") = Some false
  /\ EndsWithFunction_call (bs "lo") (bs "hello") = Some false.
Proof.
  assert (H1 : view_size (bs "lo")) by (vm_compute; discriminate).
  assert (H2 : size (bs "lo") < size (bs "hello")) by (vm_compute; reflexivity).
  split; [exact H1|]. split; [exact H2|].
  exact (longer_pattern_never_matches (bs "lo") (bs "hello") H1 H2).
Defined.

Lemma contains_preorder_witness :
  view_size (bs "abcde") /\ view_size (bs "bcd")
  /\ ContainsFunction_call (bs "abcde") (bs "abcde") = true
  /\ (ContainsFunction_call (bs "abcde") (bs "bcd") = true ->
      ContainsFunction_call (bs "bcd") (bs "c") = true ->
      ContainsFunction_call (bs "abcde") (bs "c") = true)
  /\ (ContainsFunction_call (bs "abcde") (bs "bcd") = true ->
      ContainsFunction_call (bs "bcd") (bs "abcde") = true ->
      bs "abcde" = bs "bcd").
Proof.
  assert (H1 : view_size (bs "abcde")) by (vm_compute; discriminate).
  assert (H2 : view_size (bs "bcd")) by (vm_compute; discriminate).
  split; [exact H1|]. split; [exact H2|].
  exact (contains_preorder (bs "abcde") (bs "bcd") (bs "c") H1 H2).
Defined.

(* ================================================================== *)
(** ** DelimiterSplitter: negative counts, missing delimiters, shape *)

Lemma occ_below_S (s d : bytes) (k : nat) :
  occ_below s d (S k)
  = if match_at s d k then k :: occ_below s d k else occ_below s d k.
Proof.
  unfold occ_below. rewrite seq_S, filter_app, rev_app_distr. cbn [filter Nat.add].
  destruct (match_at s d k); reflexivity.
Qed.

Lemma occ_below_cons (s d : bytes) (m p : nat) (rest : list nat) :
  occ_below s d m = p :: rest -> rest = occ_below s d p /\ (p < m)%nat.
Proof.
  induction m as [|m IH]; [discriminate|]. rewrite occ_below_S.
  destruct (match_at s d m).
  - intros H. injection H as <- <-. split; [reflexivity|lia].
  - intros H. apply IH in H. destruct H. split; [assumption|lia].
Qed.

Lemma match_at_fits (s d : bytes) (j : nat) :
  match_at s d j = true -> (j + length d <= length s)%nat.
Proof.
  unfold match_at. intros H. apply andb_true_iff in H. destruct H as [H1 H2].
  apply Nat.leb_le in H1. apply prefixb_iff in H2. destruct H2 as [post E].
  apply (f_equal (@length byte)) in E. rewrite length_skipn, length_app in E.
  lia.
Qed.

Lemma match_at_split (s d : bytes) (j : nat) :
  match_at s d j = true ->
  s = firstn j s ++ d ++ skipn (j + length d) s.
Proof.
  intros H. pose proof (match_at_fits s d j H) as Hf.
  unfold match_at in H. apply andb_true_iff in H. destruct H as [_ H].
  apply prefixb_iff in H. destruct H as [post E].
  rewrite <- (firstn_skipn j s) at 1. f_equal. rewrite E. f_equal.
  rewrite Nat.add_comm, <- skipn_skipn, E.
  rewrite skipn_app, skipn_all, Nat.sub_diag. reflexivity.
Qed.

Lemma occ_below_all (s d : bytes) :
  (length d <= length s)%nat ->
  occ_below s d (S (length s - length d)) = rev (occurrences s d).
Proof.
  intros Hl. unfold occ_below, occurrences. f_equal.
  replace (S (length s)) with (S (length s - length d) + length d)%nat by lia.
  rewrite seq_app, filter_app.
  rewrite (filter_seq_none _ (length d)); [now rewrite app_nil_r|].
  intros j Hj. destruct (match_at s d j) eqn:E; [|reflexivity].
  apply match_at_fits in E. lia.
Qed.

Lemma rfind_down_occ (s d : bytes) (k : nat) :
  (k <= length s)%nat ->
  rfind_down s d k = hd_error (occ_below s d (S k)).
Proof.
  induction k as [|k IH]; intros Hk; rewrite occ_below_S; unfold match_at;
    cbn [rfind_down].
  - cbn [Nat.leb andb]. destruct (prefixb d (skipn 0 s)); reflexivity.
  - destruct (Nat.leb_spec (S k) (length s)); [|lia]. cbn [andb].
    destruct (prefixb d (skipn (S k) s)); [reflexivity|].
    apply IH. lia.
Qed.

(** [rfind] from [pos] returns the last occurrence at or before [pos]. *)
Lemma sv_rfind_occ (s d : bytes) (pos : Z) :
  size d <= size s -> 0 <= pos ->
  sv_rfind s d pos
  = match occ_below s d (S (Z.to_nat (Z.min pos (size s - size d)))) with
    | [] => npos
    | p :: _ => Z.of_nat p
    end.
Proof.
  intros Hd Hp. unfold sv_rfind.
  destruct (Z.ltb_spec (size s) (size d)); [lia|].
  rewrite rfind_down_occ by (unfold size in *; lia).
  now destruct (occ_below s d (S (Z.to_nat (Z.min pos (size s - size d))))).
Qed.

Section RfindLoopOcc.

Variables (s d : bytes) (mcount : Z).
Hypothesis Hsz : view_size s.
Hypothesis Hd : size d <= size s.
Hypothesis Hm : mcount <= INT32_MAX.

Lemma rfind_loop_occ (fuel : nat) (n index : Z) (q : nat) :
  0 <= n < mcount -> mcount - n <= Z.of_nat fuel -> 0 <= index ->
  nth_error (occ_below s d (S (Z.to_nat (Z.min index (size s - size d)))))
    (Z.to_nat (mcount - n - 1)) = Some q ->
  rfind_loop s d mcount fuel n index = Z.of_nat q.
Proof.
  unfold view_size, UINT32_MAX, INT32_MAX in *.
  revert n index. induction fuel as [|fuel IH]; intros n index Hn Hf Hi Hq;
    [lia|].
  cbn [rfind_loop].
  destruct (Z.ltb_spec n mcount); [|lia].
  rewrite wrap32_id by (unfold in_int32, INT32_MIN, INT32_MAX; lia).
  rewrite sv_rfind_occ by assumption.
  destruct (occ_below s d (S (Z.to_nat (Z.min index (size s - size d)))))
    as [|p rest] eqn:E.
  { now destruct (Z.to_nat (mcount - n - 1)). }
  apply occ_below_cons in E. destruct E as [-> Hp].
  pose proof (size_nonneg d) as Hd0.
  destruct (Z.eqb_spec (Z.of_nat p) npos) as [Hc|_]; [unfold npos in Hc; lia|].
  destruct (Z.ltb_spec (n + 1) mcount) as [Hlt|Hge].
  - replace (Z.to_nat (mcount - n - 1))
      with (S (Z.to_nat (mcount - (n + 1) - 1))) in Hq by lia.
    cbn [nth_error] in Hq.
    destruct p as [|p'].
    { unfold occ_below in Hq. cbn in Hq.
      now destruct (Z.to_nat (mcount - (n + 1) - 1)). }
    rewrite wrap64_id by lia.
    apply IH; try lia.
    replace (S (Z.to_nat (Z.min (Z.of_nat (S p') - 1) (size s - size d))))
      with (S p') by lia.
    exact Hq.
  - replace (Z.to_nat (mcount - n - 1)) with O in Hq by lia.
    cbn [nth_error] in Hq. injection Hq as <-.
    destruct fuel; cbn [rfind_loop]; [reflexivity|].
    destruct (Z.ltb_spec (n + 1) mcount); [lia|reflexivity].
Qed.

End RfindLoopOcc.

(** X7.  For a non-empty delimiter and [count < 0] (above [INT32_MIN]):
    when the delimiter occurs at least [|count|] times, [substring_index]
    returns the bytes after the [|count|]-th occurrence counted from the
    right, and the delimiter sits immediately before the result. *)
Theorem substring_index_from_right
  (str delim : bytes) (count : Z) (q : nat) :
  view_size str -> delim <> [] ->
  INT32_MIN < count < 0 ->
  nth_error (rev (occurrences str delim)) (Z.to_nat (- count - 1)) = Some q ->
  SubstringIndexFunction_call str delim count
  = setNoCopy (Z.of_nat q + size delim) (size str - Z.of_nat q - size delim)
  /\ bytes_of str (SubstringIndexFunction_call str delim count)
     = skipn (q + length delim) str
  /\ str = firstn q str ++ delim ++ skipn (q + length delim) str.
Proof.
  intros Hsz Hne Hc Hq.
  assert (Hin : In q (occurrences str delim))
    by (apply in_rev; eapply nth_error_In; exact Hq).
  unfold occurrences in Hin. apply filter_In in Hin. destruct Hin as [_ Hmatch].
  pose proof (match_at_fits _ _ _ Hmatch) as Hfit.
  assert (Hdl : (1 <= length delim)%nat)
    by (destruct delim; [congruence|cbn [length]; lia]).
  unfold INT32_MIN in Hc.
  assert (Hcall : SubstringIndexFunction_call str delim count
                  = setNoCopy (Z.of_nat q + size delim)
                      (size str - Z.of_nat q - size delim)).
  { unfold SubstringIndexFunction_call.
    destruct (Z.eqb_spec count 0); [lia|].
    destruct (Z.ltb_spec 0 count); [lia|]. cbv zeta.
    rewrite (wrap32_id (- count))
      by (unfold in_int32, INT32_MIN, INT32_MAX; lia).
    unfold view_size, UINT32_MAX in Hsz. unfold size in *.
    rewrite (wrap64_id (Z.of_nat (length str) - 1)) by lia.
    rewrite (rfind_loop_occ str delim (- count) Hsz ltac:(unfold size; lia)
               ltac:(unfold INT32_MAX; lia) (Z.to_nat (- count)) 0
               (Z.of_nat (length str) - 1) q); try lia.
    - destruct (Z.eqb_spec (Z.of_nat q) npos) as [E|_];
        [unfold npos in E; lia|].
      rewrite (wrap64_id (Z.of_nat (length str) - Z.of_nat q)) by lia.
      rewrite wrap64_id by lia. reflexivity.
    - unfold size.
      replace (S (Z.to_nat (Z.min (Z.of_nat (length str) - 1)
                              (Z.of_nat (length str) - Z.of_nat (length delim)))))
        with (S (length str - length delim)) by lia.
      rewrite occ_below_all by lia.
      replace (Z.to_nat (- count - 0 - 1)) with (Z.to_nat (- count - 1)) by lia.
      exact Hq. }
  split; [exact Hcall|]. split; [|now apply match_at_split].
  rewrite Hcall. cbn [bytes_of]. unfold sv_make, size.
  replace (Z.to_nat (Z.of_nat q + Z.of_nat (length delim)))
    with (q + length delim)%nat by lia.
  apply firstn_all2. rewrite length_skipn. lia.
Qed.

Lemma rfind_down_some (s d : bytes) (k j : nat) :
  rfind_down s d k = Some j -> prefixb d (skipn j s) = true.
Proof.
  induction k as [|k IH]; cbn [rfind_down].
  - destruct (prefixb d (skipn 0 s)) eqn:E; [|discriminate].
    intros H. now injection H as <-.
  - destruct (prefixb d (skipn (S k) s)) eqn:E.
    + intros H. now injection H as <-.
    + exact IH.
Qed.

(** A match reported by a search is an occurrence in the sense of
    [contains]. *)
Lemma prefixb_skipn_infix (s d : bytes) (j : nat) :
  prefixb d (skipn j s) = true -> exists pre post, s = pre ++ d ++ post.
Proof.
  intros H. apply prefixb_iff in H. destruct H as [post E].
  exists (firstn j s), post. now rewrite <- E, firstn_skipn.
Qed.

(** X8.  When [contains(str, delim)] is false, [substring_index] returns
    the whole input for every [count] other than 0 (and above
    [INT32_MIN]), positive or negative. *)
Theorem substring_index_without_delimiter (str delim : bytes) (count : Z) :
  view_size str -> INT32_MIN < count <= INT32_MAX -> count <> 0 ->
  ContainsFunction_call str delim = false ->
  SubstringIndexFunction_call str delim count = setNoCopy 0 (size str)
  /\ bytes_of str (SubstringIndexFunction_call str delim count) = str.
Proof.
  intros Hsz Hc Hnz Hno.
  assert (Hnpos : size str < npos)
    by (unfold view_size, UINT32_MAX, npos in *; lia).
  assert (Hnone : forall j, prefixb delim (skipn j str) = false).
  { intros j. destruct (prefixb delim (skipn j str)) eqn:E; [|reflexivity].
    apply prefixb_skipn_infix in E.
    apply (occurs_in_iff str delim Hnpos) in E.
    change (occurs_in str delim) with (ContainsFunction_call str delim) in E.
    congruence. }
  assert (Hcall : SubstringIndexFunction_call str delim count
                  = setNoCopy 0 (size str)).
  { destruct (Z.ltb_spec 0 count) as [Hpos|Hneg].
    - rewrite substring_index_positive by (try assumption; lia).
      destruct (nth_error (occurrences str delim) (Z.to_nat (count - 1)))
        as [p|] eqn:E; [|reflexivity].
      apply nth_error_In in E. unfold occurrences in E.
      apply filter_In in E. destruct E as [_ E]. unfold match_at in E.
      apply andb_true_iff in E. destruct E as [_ E].
      rewrite Hnone in E. discriminate.
    - unfold SubstringIndexFunction_call.
      destruct (Z.eqb_spec count 0); [contradiction|].
      destruct (Z.ltb_spec 0 count); [lia|]. cbv zeta.
      unfold INT32_MIN, INT32_MAX in Hc.
      rewrite (wrap32_id (- count))
        by (unfold in_int32, INT32_MIN, INT32_MAX; lia).
      assert (Hr : forall pos, sv_rfind str delim pos = npos).
      { intros pos. unfold sv_rfind.
        destruct (size str <? size delim); [reflexivity|].
        destruct (rfind_down str delim
                    (Z.to_nat (Z.min pos (size str - size delim))))
          as [j|] eqn:E; [|reflexivity].
        apply rfind_down_some in E. rewrite Hnone in E. discriminate. }
      destruct (Z.to_nat (- count)) as [|fuel] eqn:Ef; [lia|].
      cbn [rfind_loop]. destruct (Z.ltb_spec 0 (- count)); [|lia].
      rewrite Hr, Z.eqb_refl. reflexivity. }
  split; [exact Hcall|]. rewrite Hcall. apply sv_make_whole.
Qed.

(** X9.  For [count > 0], when the delimiter occurs fewer than [count]
    times, [substring_index] returns the whole input. *)
Theorem substring_index_too_few_from_left (str delim : bytes) (count : Z) :
  view_size str -> 0 < count <= INT32_MAX ->
  Z.of_nat (length (occurrences str delim)) < count ->
  SubstringIndexFunction_call str delim count = setNoCopy 0 (size str)
  /\ bytes_of str (SubstringIndexFunction_call str delim count) = str.
Proof.
  intros Hsz Hc Hfew. rewrite substring_index_positive by assumption.
  assert (E : nth_error (occurrences str delim) (Z.to_nat (count - 1)) = None)
    by (apply nth_error_None; lia).
  rewrite E. split; [reflexivity|]. apply sv_make_whole.
Qed.

(** X10.  For every delimiter, [substring_index] returns a prefix of the
    input when [count > 0] and a suffix of it when [count < 0] (above
    [INT32_MIN]). *)
Theorem substring_index_prefix_or_suffix (str delim : bytes) (count : Z) :
  view_size str -> INT32_MIN < count <= INT32_MAX ->
  (0 < count ->
   exists rest, str = bytes_of str (SubstringIndexFunction_call str delim count)
                      ++ rest)
  /\ (count < 0 ->
      exists front,
        str = front
              ++ bytes_of str (SubstringIndexFunction_call str delim count)).
Proof.
  intros Hsz Hc. pose proof (size_nonneg str) as Hs0.
  pose proof (size_nonneg delim) as Hd0. split; intros Hsign.
  - rewrite substring_index_positive by (try assumption; lia).
    destruct (nth_error (occurrences str delim) (Z.to_nat (count - 1)))
      as [p|]; cbn [bytes_of].
    + rewrite sv_make_prefix. exists (skipn p str).
      symmetry. apply firstn_skipn.
    + rewrite sv_make_whole. exists []. now rewrite app_nil_r.
  - unfold SubstringIndexFunction_call.
    destruct (Z.eqb_spec count 0); [lia|].
    destruct (Z.ltb_spec 0 count); [lia|]. cbv zeta.
    unfold INT32_MIN, INT32_MAX in Hc.
    rewrite (wrap32_id (- count))
      by (unfold in_int32, INT32_MIN, INT32_MAX; lia).
    pose proof (rfind_loop_range str delim (- count)
                  ltac:(unfold INT32_MAX; lia)
                  (Z.to_nat (- count)) 0 (wrap64 (size str - 1))
                  ltac:(lia) ltac:(lia)) as Hr.
    cbv zeta in Hr.
    set (r := rfind_loop str delim (- count) (Z.to_nat (- count)) 0
                (wrap64 (size str - 1))) in *.
    unfold view_size, UINT32_MAX in Hsz.
    destruct (Z.eqb_spec r npos).
    + cbn [bytes_of]. rewrite sv_make_whole. now exists [].
    + destruct Hr as [?|Hr]; [contradiction|].
      rewrite (wrap64_id (size str - r)) by lia.
      rewrite wrap64_id by lia. cbn [bytes_of]. unfold sv_make.
      exists (firstn (Z.to_nat (r + size delim)) str).
      assert (Hall : firstn (Z.to_nat (size str - r - size delim))
                       (skipn (Z.to_nat (r + size delim)) str)
                     = skipn (Z.to_nat (r + size delim)) str).
      { apply firstn_all2. rewrite length_skipn. unfold size in *. lia. }
      rewrite Hall. symmetry. apply firstn_skipn.
Qed.

(** X11.  For [count > 0], when the [count]-th occurrence exists, the
    input is the result followed at once by the delimiter: the result
    ends exactly where that occurrence starts. *)
Theorem substring_index_delimiter_follows
  (str delim : bytes) (count : Z) (p : nat) :
  view_size str -> 0 < count <= INT32_MAX ->
  nth_error (occurrences str delim) (Z.to_nat (count - 1)) = Some p ->
  exists rest,
    str = bytes_of str (SubstringIndexFunction_call str delim count)
          ++ delim ++ rest.
Proof.
  intros Hsz Hc Hp. rewrite substring_index_positive by assumption.
  rewrite Hp. cbn [bytes_of]. rewrite sv_make_prefix.
  apply nth_error_In in Hp. unfold occurrences in Hp.
  apply filter_In in Hp. destruct Hp as [_ Hm].
  exists (skipn (p + length delim) str). now apply match_at_split.
Qed.

Lemma substring_index_from_right_witness :
  view_size (bs "a.b.c") /\ bs "." <> [] /\ INT32_MIN < -2 < 0
  /\ nth_error (rev (occurrences (bs "a.b.c") (bs ".")))
       (Z.to_nat (- -2 - 1)) = Some 1%nat
  /\ SubstringIndexFunction_call (bs "a.b.c") (bs ".") (-2)
     = setNoCopy (Z.of_nat 1 + size (bs "."))
         (size (bs "a.b.c") - Z.of_nat 1 - size (bs "."))
  /\ bytes_of (bs "a.b.c") (SubstringIndexFunction_call (bs "a.b.c") (bs ".") (-2))
     = skipn (1 + length (bs ".")) (bs "a.b.c")
  /\ bs "a.b.c"
     = firstn 1 (bs "a.b.c") ++ bs "." ++ skipn (1 + length (bs ".")) (bs "a.b.c").
Proof.
  assert (H1 : view_size (bs "a.b.c")) by (vm_compute; discriminate).
  assert (H2 : bs "." <> []) by discriminate.
  assert (H3 : INT32_MIN < -2 < 0) by (unfold INT32_MIN; lia).
  assert (H4 : nth_error (rev (occurrences (bs "a.b.c") (bs ".")))
                 (Z.to_nat (- -2 - 1)) = Some 1%nat) by reflexivity.
  split; [exact H1|]. split; [exact H2|]. split; [exact H3|].
  split; [exact H4|].
  exact (substring_index_from_right (bs "a.b.c") (bs ".") (-2) 1 H1 H2 H3 H4).
Defined.

Lemma substring_index_without_delimiter_witness :
  view_size (bs "abc") /\ INT32_MIN < -2 <= INT32_MAX /\ -2 <> 0
  /\ ContainsFunction_call (bs "abc") (bs ".") = false
  /\ SubstringIndexFunction_call (bs "abc") (bs ".") (-2)
     = setNoCopy 0 (size (bs "abc"))
  /\ bytes_of (bs "abc") (SubstringIndexFunction_call (bs "abc") (bs ".") (-2))
     = bs "abc".
Proof.
  assert (H1 : view_size (bs "abc")) by (vm_compute; discriminate).
  assert (H2 : INT32_MIN < -2 <= INT32_MAX)
    by (unfold INT32_MIN, INT32_MAX; lia).
  assert (H3 : -2 <> 0) by lia.
  assert (H4 : ContainsFunction_call (bs "abc") (bs ".") = false)
    by reflexivity.
  split; [exact H1|]. split; [exact H2|]. split; [exact H3|].
  split; [exact H4|].
  exact (substring_index_without_delimiter (bs "abc") (bs ".") (-2)
           H1 H2 H3 H4).
Defined.

Lemma substring_index_too_few_from_left_witness :
  view_size (bs "a.b.c") /\ 0 < 5 <= INT32_MAX
  /\ Z.of_nat (length (occurrences (bs "a.b.c") (bs "."))) < 5
  /\ SubstringIndexFunction_call (bs "a.b.c") (bs ".") 5
     = setNoCopy 0 (size (bs "a.b.c"))
  /\ bytes_of (bs "a.b.c") (SubstringIndexFunction_call (bs "a.b.c") (bs ".") 5)
     = bs "a.b.c".
Proof.
  assert (H1 : view_size (bs "a.b.c")) by (vm_compute; discriminate).
  assert (H2 : 0 < 5 <= INT32_MAX) by (unfold INT32_MAX; lia).
  assert (H3 : Z.of_nat (length (occurrences (bs "a.b.c") (bs "."))) < 5)
    by (vm_compute; reflexivity).
  split; [exact H1|]. split; [exact H2|]. split; [exact H3|].
  exact (substring_index_too_few_from_left (bs "a.b.c") (bs ".") 5 H1 H2 H3).
Defined.

Lemma substring_index_prefix_or_suffix_witness :
  view_size (bs "a.b.c") /\ INT32_MIN < -2 <= INT32_MAX
  /\ (0 < -2 ->
      exists rest,
        bs "a.b.c"
        = bytes_of (bs "a.b.c")
            (SubstringIndexFunction_call (bs "a.b.c") (bs ".") (-2)) ++ rest)
  /\ (-2 < 0 ->
      exists front,
        bs "a.b.c"
        = front ++ bytes_of (bs "a.b.c")
                     (SubstringIndexFunction_call (bs "a.b.c") (bs ".") (-2))).
Proof.
  assert (H1 : view_size (bs "a.b.c")) by (vm_compute; discriminate).
  assert (H2 : INT32_MIN < -2 <= INT32_MAX)
    by (unfold INT32_MIN, INT32_MAX; lia).
  split; [exact H1|]. split; [exact H2|].
  exact (substring_index_prefix_or_suffix (bs "a.b.c") (bs ".") (-2) H1 H2).
Defined.

Lemma substring_index_delimiter_follows_witness :
  view_size (bs "a.b.c") /\ 0 < 2 <= INT32_MAX
  /\ nth_error (occurrences (bs "a.b.c") (bs ".")) (Z.to_nat (2 - 1))
     = Some 3%nat
  /\ exists rest,
       bs "a.b.c"
       = bytes_of (bs "a.b.c")
           (SubstringIndexFunction_call (bs "a.b.c") (bs ".") 2)
         ++ bs "." ++ rest.
Proof.
  assert (H1 : view_size (bs "a.b.c")) by (vm_compute; discriminate).
  assert (H2 : 0 < 2 <= INT32_MAX) by (unfold INT32_MAX; lia).
  assert (H3 : nth_error (occurrences (bs "a.b.c") (bs "."))
                 (Z.to_nat (2 - 1)) = Some 3%nat) by reflexivity.
  split; [exact H1|]. split; [exact H2|]. split; [exact H3|].
  exact (substring_index_delimiter_follows (bs "a.b.c") (bs ".") 2 3
           H1 H2 H3).
Defined.

(* ================================================================== *)
(** ** TrimEngine: whole codepoints, composition, idempotence, sets *)

(** *** Lists trimmed at both ends *)

Lemma drop_while_fixed {A : Type} (f : A -> bool) (l : list A) :
  drop_while f l = l <-> (l = [] \/ exists x l', l = x :: l' /\ f x = false).
Proof.
  destruct l as [|x l]; cbn [drop_while].
  - split; [now left|reflexivity].
  - destruct (f x) eqn:E; split.
    + intros H. exfalso.
      pose proof (size_take_drop f l) as Hl.
      rewrite H in Hl. cbn [length] in Hl. lia.
    + intros [H|(y & l' & H & Hy)]; [discriminate|].
      injection H as -> ->. congruence.
    + intros _. right. now exists x, l.
    + reflexivity.
Qed.

Lemma drop_while_idem {A : Type} (f : A -> bool) (l : list A) :
  drop_while f (drop_while f l) = drop_while f l.
Proof.
  induction l as [|x l IH]; [reflexivity|]. cbn [drop_while].
  destruct (f x) eqn:E; [exact IH|]. cbn [drop_while]. now rewrite E.
Qed.

Lemma trim_right_keeps_head {A : Type} (on : bool) (f : A -> bool)
  (x : A) (l : list A) :
  f x = false ->
  exists l', trim_right on f (x :: l) = x :: l'.
Proof.
  intros Hx. destruct on; cbn [trim_right]; [|now exists l].
  cbn [rev].
  assert (H : forall (r : list A),
            exists l', rev (drop_while f (r ++ [x])) = x :: l').
  { induction r as [|y r IH]; cbn [app drop_while].
    - rewrite Hx. now exists [].
    - destruct (f y); [exact IH|].
      cbn [rev]. rewrite rev_app_distr. cbn [rev app]. eauto. }
  apply H.
Qed.

Lemma trim_right_idem {A : Type} (on : bool) (f : A -> bool) (l : list A) :
  trim_right on f (trim_right on f l) = trim_right on f l.
Proof.
  destruct on; cbn [trim_right]; [|reflexivity].
  now rewrite rev_involutive, drop_while_idem.
Qed.

Lemma trim_left_idem {A : Type} (on : bool) (f : A -> bool) (l : list A) :
  trim_left on f (trim_left on f l) = trim_left on f l.
Proof.
  destruct on; cbn [trim_left]; [apply drop_while_idem|reflexivity].
Qed.

(** Trimming what is already trimmed changes nothing. *)
Lemma trim_idem {A : Type} (lt rt : bool) (f : A -> bool) (l : list A) :
  let k := trim_right rt f (trim_left lt f l) in
  trim_right rt f (trim_left lt f k) = k.
Proof.
  intros k. subst k.
  assert (Hl : trim_left lt f (trim_right rt f (trim_left lt f l))
               = trim_right rt f (trim_left lt f l)).
  { destruct lt; cbn [trim_left]; [|reflexivity].
    apply drop_while_fixed.
    destruct (proj1 (drop_while_fixed f (drop_while f l))
                (drop_while_idem f l)) as [E|(x & l' & E & Hx)].
    - rewrite E. left. destruct rt; reflexivity.
    - rewrite E. destruct (trim_right_keeps_head rt f x l' Hx) as [l2 E2].
      right. exists x, l2. now split. }
  rewrite Hl. apply trim_right_idem.
Qed.

Lemma well_formed_trim (lt rt : bool) (f : bytes -> bool) (cps : codepoints) :
  well_formed cps = true ->
  well_formed (trim_right rt f (trim_left lt f cps)) = true
  /\ exists front back,
       cps = front ++ trim_right rt f (trim_left lt f cps) ++ back
       /\ (lt = false -> front = []) /\ (rt = false -> back = []).
Proof.
  intros Hwf.
  destruct (trim_left_suffix lt f cps) as (front & Hsplit & Hfront).
  destruct (trim_right_prefix rt f (trim_left lt f cps)) as (back & Hback).
  assert (Hcps : cps = front ++ trim_right rt f (trim_left lt f cps) ++ back)
    by (rewrite <- Hback; exact Hsplit).
  split.
  - rewrite Hcps, !well_formed_app in Hwf.
    apply andb_true_iff in Hwf. destruct Hwf as [_ Hwf].
    apply andb_true_iff in Hwf. now destruct Hwf.
  - exists front, back. split; [exact Hcps|]. split.
    + intros ->. exact Hfront.
    + intros ->. cbn [trim_right] in Hback.
      apply (f_equal (@length bytes)) in Hback. rewrite length_app in Hback.
      destruct back; [reflexivity|cbn [length] in Hback; lia].
Qed.

Lemma codepoints_of_concat (cps : codepoints) :
  well_formed cps = true -> codepoints_of (concat cps) = cps.
Proof.
  intros Hwf. unfold codepoints_of. apply split_codepoints_concat; [assumption|].
  induction cps as [|c cps IH]; [cbn; lia|].
  cbn [well_formed forallb] in Hwf. apply andb_true_iff in Hwf.
  destruct Hwf as [Hc Hwf]. specialize (IH Hwf).
  cbn [concat length]. rewrite length_app.
  destruct c; [discriminate|cbn [length]; lia].
Qed.

Lemma drop_while_none {A : Type} (l : list A) :
  drop_while (fun _ => false) l = l.
Proof. now destruct l. Qed.

Lemma trim_none {A : Type} (lt rt : bool) (l : list A) :
  trim_right rt (fun _ => false) (trim_left lt (fun _ => false) l) = l.
Proof.
  destruct lt, rt; cbn [trim_left trim_right];
    rewrite ?drop_while_none, ?rev_involutive; reflexivity.
Qed.

Lemma call_empty_trimStr (leftTrim rightTrim : bool) (srcStr : bytes) :
  bytes_of srcStr (TrimFunctionBase_call leftTrim rightTrim [] srcStr)
  = srcStr.
Proof.
  unfold TrimFunctionBase_call. change (empty []) with true.
  destruct (empty srcStr) eqn:E; [|apply sv_make_whole].
  unfold empty in E. apply Z.eqb_eq in E. destruct srcStr as [|x rest];
    [reflexivity|].
  rewrite size_cons in E. pose proof (size_nonneg rest). lia.
Qed.

Lemma callAscii_empty_trimStr (leftTrim rightTrim : bool) (srcStr : bytes) :
  bytes_of srcStr (TrimFunctionBase_callAscii leftTrim rightTrim [] srcStr)
  = srcStr.
Proof.
  unfold TrimFunctionBase_callAscii. change (empty []) with true.
  destruct (empty srcStr) eqn:E; [|apply sv_make_whole].
  unfold empty in E. apply Z.eqb_eq in E. destruct srcStr as [|x rest];
    [reflexivity|].
  rewrite size_cons in E. pose proof (size_nonneg rest). lia.
Qed.

(** [call] with a given trim string is a trim of the list of codepoints
    by one test on codepoints. *)
Lemma call_as_list_trim (trimStr : bytes) :
  exists f : bytes -> bool,
    forall (leftTrim rightTrim : bool) (srcStr : bytes),
      well_formed_utf8 srcStr = true ->
      bytes_of srcStr (TrimFunctionBase_call leftTrim rightTrim trimStr srcStr)
      = concat (trim_right rightTrim f
                  (trim_left leftTrim f (codepoints_of srcStr))).
Proof.
  destruct trimStr as [|t0 t'] eqn:Et.
  - exists (fun _ => false). intros l r s _.
    now rewrite call_empty_trimStr, trim_none, concat_codepoints_of.
  - rewrite <- Et. exists (occurs_in trimStr). intros l r s Hwf.
    rewrite <- (concat_codepoints_of s) at 1 2.
    apply call_codepoints_bytes; [rewrite Et; discriminate|exact Hwf].
Qed.

(** X12.  On well-formed input, for any trim string, the general-form
    [trim] never cuts a codepoint: the result is well-formed and its
    codepoints are a contiguous run of the input's codepoints, which
    starts at the first one for [rtrim] and ends at the last one for
    [ltrim]. *)
Theorem trim_keeps_whole_codepoints
  (leftTrim rightTrim : bool) (trimStr srcStr : bytes) :
  well_formed_utf8 srcStr = true ->
  let result :=
    bytes_of srcStr (TrimFunctionBase_call leftTrim rightTrim trimStr srcStr) in
  well_formed_utf8 result = true
  /\ exists front back,
       codepoints_of srcStr = front ++ codepoints_of result ++ back
       /\ (leftTrim = false -> front = [])
       /\ (rightTrim = false -> back = []).
Proof.
  intros Hwf result. subst result.
  destruct (call_as_list_trim trimStr) as [f Hf]. rewrite Hf by assumption.
  destruct (well_formed_trim leftTrim rightTrim f (codepoints_of srcStr) Hwf)
    as (Hk & front & back & Hsplit & Hl & Hr).
  unfold well_formed_utf8. rewrite codepoints_of_concat by assumption.
  split; [exact Hk|]. now exists front, back.
Qed.

(** X13.  On well-formed input, [trim] is [rtrim] applied to the result
    of [ltrim], with the same trim string. *)
Theorem trim_is_rtrim_after_ltrim (trimStr srcStr : bytes) :
  well_formed_utf8 srcStr = true ->
  let left := bytes_of srcStr (LTrimFunction_call trimStr srcStr) in
  bytes_of left (RTrimFunction_call trimStr left)
  = bytes_of srcStr (TrimFunction_call trimStr srcStr).
Proof.
  intros Hwf left. subst left.
  unfold LTrimFunction_call, RTrimFunction_call, TrimFunction_call.
  destruct (call_as_list_trim trimStr) as [f Hf].
  rewrite (Hf true false srcStr Hwf), (Hf true true srcStr Hwf).
  destruct (well_formed_trim true false f (codepoints_of srcStr) Hwf)
    as (Hk & _).
  rewrite Hf by (unfold well_formed_utf8;
                 now rewrite codepoints_of_concat by assumption).
  now rewrite codepoints_of_concat by assumption.
Qed.

(** X14.  On well-formed input, the general-form [trim], [ltrim] and
    [rtrim] are idempotent: applied to their own result with the same
    trim string they return it unchanged. *)
Theorem trim_idempotent
  (leftTrim rightTrim : bool) (trimStr srcStr : bytes) :
  well_formed_utf8 srcStr = true ->
  let once :=
    bytes_of srcStr (TrimFunctionBase_call leftTrim rightTrim trimStr srcStr) in
  bytes_of once (TrimFunctionBase_call leftTrim rightTrim trimStr once) = once.
Proof.
  intros Hwf once. subst once.
  destruct (call_as_list_trim trimStr) as [f Hf].
  rewrite (Hf leftTrim rightTrim srcStr Hwf).
  destruct (well_formed_trim leftTrim rightTrim f (codepoints_of srcStr) Hwf)
    as (Hk & _).
  rewrite Hf by (unfold well_formed_utf8;
                 now rewrite codepoints_of_concat by assumption).
  rewrite codepoints_of_concat by assumption.
  f_equal. apply trim_idem.
Qed.

(** X15.  On any byte string, the ASCII entry point of [trim] ([ltrim],
    [rtrim]) returns the input without its leading and/or trailing bytes
    that occur in the trim string, up to the first byte that does not;
    with the empty trim string nothing is removed. *)
Theorem trim_ascii_removes_set_bytes
  (leftTrim rightTrim : bool) (trimStr srcStr : bytes) :
  view_size srcStr ->
  bytes_of srcStr
    (TrimFunctionBase_callAscii leftTrim rightTrim trimStr srcStr)
  = trim_right rightTrim (byte_in trimStr)
      (trim_left leftTrim (byte_in trimStr) srcStr).
Proof.
  intros Hsz. destruct trimStr as [|t0 t'] eqn:Et.
  - rewrite callAscii_empty_trimStr. symmetry. apply trim_none.
  - rewrite <- Et. apply callAscii_bytes; [rewrite Et; discriminate|exact Hsz].
Qed.

Lemma trim_shorter {A : Type} (lt rt : bool) (f : A -> bool) (l : list A) :
  (length (trim_right rt f (trim_left lt f l)) <= length l)%nat.
Proof.
  destruct (trim_left_suffix lt f l) as (front & Hsplit & _).
  destruct (trim_right_prefix rt f (trim_left lt f l)) as (back & Hback).
  rewrite Hsplit at 2. rewrite Hback at 2. rewrite !length_app. lia.
Qed.

(** X16.  The ASCII entry point of [trim], [ltrim] and [rtrim] is
    idempotent on every byte string. *)
Theorem trim_ascii_idempotent
  (leftTrim rightTrim : bool) (trimStr srcStr : bytes) :
  view_size srcStr ->
  let once :=
    bytes_of srcStr
      (TrimFunctionBase_callAscii leftTrim rightTrim trimStr srcStr) in
  bytes_of once (TrimFunctionBase_callAscii leftTrim rightTrim trimStr once)
  = once.
Proof.
  intros Hsz once. subst once.
  destruct trimStr as [|t0 t'] eqn:Et.
  - now rewrite !callAscii_empty_trimStr.
  - rewrite <- Et.
    assert (Hne : trimStr <> []) by (rewrite Et; discriminate).
    rewrite (proj1 (callAscii_bytes leftTrim rightTrim trimStr srcStr Hne Hsz)).
    set (once := trim_right rightTrim (byte_in trimStr)
                   (trim_left leftTrim (byte_in trimStr) srcStr)).
    assert (Hsz1 : view_size once).
    { pose proof (trim_shorter leftTrim rightTrim (byte_in trimStr) srcStr).
      unfold view_size, size in *. fold once in H. lia. }
    rewrite (proj1 (callAscii_bytes leftTrim rightTrim trimStr once Hne Hsz1)).
    apply trim_idem.
Qed.

(** X17.  On the ASCII entry point the trim string counts as a set of
    bytes: two trim strings with the same bytes, in any order and with
    any repetitions, give the same result. *)
Theorem trim_ascii_set_semantics
  (leftTrim rightTrim : bool) (trimStr1 trimStr2 srcStr : bytes) :
  view_size srcStr ->
  (forall b, In b trimStr1 <-> In b trimStr2) ->
  bytes_of srcStr
    (TrimFunctionBase_callAscii leftTrim rightTrim trimStr1 srcStr)
  = bytes_of srcStr
      (TrimFunctionBase_callAscii leftTrim rightTrim trimStr2 srcStr).
Proof.
  intros Hsz Hsame.
  assert (H : forall t, bytes_of srcStr
                (TrimFunctionBase_callAscii leftTrim rightTrim t srcStr)
              = trim_right rightTrim (byte_in t)
                  (trim_left leftTrim (byte_in t) srcStr)).
  { intros t. destruct t as [|t0 t'] eqn:Et.
    - rewrite callAscii_empty_trimStr. symmetry. apply trim_none.
    - rewrite <- Et. apply callAscii_bytes; [rewrite Et; discriminate|exact Hsz]. }
  rewrite !H. apply trim_ext. intros b _. apply eq_true_iff_eq.
  rewrite !byte_in_iff. apply Hsame.
Qed.

(** X18.  On the general entry point the trim string counts as a set of
    codepoints: two well-formed trim strings with the same codepoints, in
    any order and with any repetitions, give the same result on
    well-formed input. *)
Theorem trim_set_semantics
  (leftTrim rightTrim : bool) (trimStr1 trimStr2 srcStr : bytes) :
  well_formed_utf8 trimStr1 = true -> well_formed_utf8 trimStr2 = true ->
  well_formed_utf8 srcStr = true ->
  view_size trimStr1 -> view_size trimStr2 ->
  (forall c, In c (codepoints_of trimStr1) <-> In c (codepoints_of trimStr2)) ->
  bytes_of srcStr (TrimFunctionBase_call leftTrim rightTrim trimStr1 srcStr)
  = bytes_of srcStr (TrimFunctionBase_call leftTrim rightTrim trimStr2 srcStr).
Proof.
  intros H1 H2 Hs Hz1 Hz2 Hsame.
  assert (H : forall t, well_formed_utf8 t = true -> view_size t ->
              bytes_of srcStr (TrimFunctionBase_call leftTrim rightTrim t srcStr)
              = concat (trim_right rightTrim (in_set (codepoints_of t))
                          (trim_left leftTrim (in_set (codepoints_of t))
                             (codepoints_of srcStr)))).
  { intros t Ht Hz.
    rewrite <- (concat_codepoints_of t) in Hz |- * at 1.
    rewrite <- (concat_codepoints_of srcStr) at 1 2.
    now apply trim_codepoints. }
  rewrite (H trimStr1 H1 Hz1), (H trimStr2 H2 Hz2). f_equal.
  apply trim_ext. intros c _. apply eq_true_iff_eq.
  rewrite !in_set_iff. apply Hsame.
Qed.

Lemma trim_keeps_whole_codepoints_witness :
  let trimStr := [xf0; x9f; x98; x80; xc3; xa9] in
  well_formed_utf8 multibyte = true
  /\ (let result :=
        bytes_of multibyte (TrimFunctionBase_call true true trimStr multibyte) in
      well_formed_utf8 result = true
      /\ exists front back,
           codepoints_of multibyte = front ++ codepoints_of result ++ back
           /\ (true = false -> front = [])
           /\ (true = false -> back = [])).
Proof.
  intros trimStr.
  assert (H1 : well_formed_utf8 multibyte = true) by reflexivity.
  split; [exact H1|].
  exact (trim_keeps_whole_codepoints true true trimStr multibyte H1).
Defined.

Lemma trim_is_rtrim_after_ltrim_witness :
  well_formed_utf8 (bs "xyabcyx") = true
  /\ (let left :=
        bytes_of (bs "xyabcyx") (LTrimFunction_call (bs "xy") (bs "xyabcyx")) in
      bytes_of left (RTrimFunction_call (bs "xy") left)
      = bytes_of (bs "xyabcyx") (TrimFunction_call (bs "xy") (bs "xyabcyx"))).
Proof.
  assert (H1 : well_formed_utf8 (bs "xyabcyx") = true) by reflexivity.
  split; [exact H1|].
  exact (trim_is_rtrim_after_ltrim (bs "xy") (bs "xyabcyx") H1).
Defined.

Lemma trim_idempotent_witness :
  well_formed_utf8 (bs "xyabcyx") = true
  /\ (let once :=
        bytes_of (bs "xyabcyx")
          (TrimFunctionBase_call true true (bs "xy") (bs "xyabcyx")) in
      bytes_of once (TrimFunctionBase_call true true (bs "xy") once) = once).
Proof.
  assert (H1 : well_formed_utf8 (bs "xyabcyx") = true) by reflexivity.
  split; [exact H1|].
  exact (trim_idempotent true true (bs "xy") (bs "xyabcyx") H1).
Defined.

Lemma trim_ascii_removes_set_bytes_witness :
  view_size (bs "xyabcyx")
  /\ bytes_of (bs "xyabcyx")
       (TrimFunctionBase_callAscii true true (bs "xy") (bs "xyabcyx"))
     = trim_right true (byte_in (bs "xy"))
         (trim_left true (byte_in (bs "xy")) (bs "xyabcyx")).
Proof.
  assert (H1 : view_size (bs "xyabcyx")) by (vm_compute; discriminate).
  split; [exact H1|].
  exact (trim_ascii_removes_set_bytes true true (bs "xy") (bs "xyabcyx") H1).
Defined.

Lemma trim_ascii_idempotent_witness :
  view_size (bs "xyabcyx")
  /\ (let once :=
        bytes_of (bs "xyabcyx")
          (TrimFunctionBase_callAscii true true (bs "xy") (bs "xyabcyx")) in
      bytes_of once (TrimFunctionBase_callAscii true true (bs "xy") once)
      = once).
Proof.
  assert (H1 : view_size (bs "xyabcyx")) by (vm_compute; discriminate).
  split; [exact H1|].
  exact (trim_ascii_idempotent true true (bs "xy") (bs "xyabcyx") H1).
Defined.

Lemma trim_ascii_set_semantics_witness :
  view_size (bs "xyabcyx")
  /\ (forall b, In b (bs "xy") <-> In b (bs "yxy"))
  /\ bytes_of (bs "xyabcyx")
       (TrimFunctionBase_callAscii true true (bs "xy") (bs "xyabcyx"))
     = bytes_of (bs "xyabcyx")
         (TrimFunctionBase_callAscii true true (bs "yxy") (bs "xyabcyx")).
Proof.
  assert (H1 : view_size (bs "xyabcyx")) by (vm_compute; discriminate).
  assert (H2 : forall b, In b (bs "xy") <-> In b (bs "yxy"))
    by (intros b; simpl; tauto).
  split; [exact H1|]. split; [exact H2|].
  exact (trim_ascii_set_semantics true true (bs "xy") (bs "yxy")
           (bs "xyabcyx") H1 H2).
Defined.

Lemma trim_set_semantics_witness :
  let t1 := [xf0; x9f; x98; x80; xc3; xa9] in
  let t2 := [xc3; xa9; xf0; x9f; x98; x80; xc3; xa9] in
  well_formed_utf8 t1 = true /\ well_formed_utf8 t2 = true
  /\ well_formed_utf8 multibyte = true
  /\ view_size t1 /\ view_size t2
  /\ (forall c, In c (codepoints_of t1) <-> In c (codepoints_of t2))
  /\ bytes_of multibyte (TrimFunctionBase_call true true t1 multibyte)
     = bytes_of multibyte (TrimFunctionBase_call true true t2 multibyte).
Proof.
  intros t1 t2.
  assert (H1 : well_formed_utf8 t1 = true) by reflexivity.
  assert (H2 : well_formed_utf8 t2 = true) by reflexivity.
  assert (H3 : well_formed_utf8 multibyte = true) by reflexivity.
  assert (H4 : view_size t1) by (vm_compute; discriminate).
  assert (H5 : view_size t2) by (vm_compute; discriminate).
  assert (H6 : forall c, In c (codepoints_of t1) <-> In c (codepoints_of t2))
    by (intros c; simpl; tauto).
  split; [exact H1|]. split; [exact H2|]. split; [exact H3|].
  split; [exact H4|]. split; [exact H5|]. split; [exact H6|].
  exact (trim_set_semantics true true t1 t2 multibyte H1 H2 H3 H4 H5 H6).
Defined.

(* ================================================================== *)
(** ** chr: the bytes it produces *)

(** A boolean property checked on each of the 256 byte values holds on
    all of them. *)
Lemma below_256_cases (P : Z -> bool) :
  forallb P (map Z.of_nat (seq 0 256)) = true ->
  forall m, 0 <= m < 256 -> P m = true.
Proof.
  intros H m Hm. rewrite forallb_forall in H. apply H.
  apply in_map_iff. exists (Z.to_nat m). split; [lia|].
  apply in_seq. lia.
Qed.

Lemma land_255 (n : Z) : Z.land n 255 = n mod 256.
Proof. change 255 with (Z.ones 8). now rewrite Z.land_ones by lia. Qed.

(** [chr] sees its argument through the low eight bits only. *)
Lemma chr_low_bits (n : Z) :
  0 <= n ->
  ChrFunction_call n
  = let m := n mod 256 in
    if m <? 128 then [char_of m]
    else [char_of (192 + Z.shiftr m 6); char_of (128 + Z.land m 63)].
Proof.
  intros Hn. unfold ChrFunction_call.
  destruct (Z.ltb_spec n 0); [lia|]. now rewrite land_255.
Qed.

(** X19.  [chr(n)] is the empty string exactly when [n < 0]; for [n >= 0]
    it has one byte when [n mod 256 < 128] and two bytes otherwise. *)
Theorem chr_empty_iff_negative (n : Z) :
  (ChrFunction_call n = [] <-> n < 0)
  /\ (0 <= n -> n mod 256 < 128 -> length (ChrFunction_call n) = 1%nat)
  /\ (0 <= n -> 128 <= n mod 256 -> length (ChrFunction_call n) = 2%nat).
Proof.
  split; [|split].
  - unfold ChrFunction_call. destruct (Z.ltb_spec n 0); [tauto|].
    cbv zeta. destruct (Z.land n 255 <? 128); split; (discriminate || lia).
  - intros Hn Hm. rewrite chr_low_bits by assumption. cbv zeta.
    destruct (Z.ltb_spec (n mod 256) 128); [reflexivity|lia].
  - intros Hn Hm. rewrite chr_low_bits by assumption. cbv zeta.
    destruct (Z.ltb_spec (n mod 256) 128); [lia|reflexivity].
Qed.

(** X20.  For [n >= 0], [chr(n)] equals [chr(n mod 256)], as the comment
    above [ChrFunction] says. *)
Theorem chr_mod_256 (n : Z) :
  0 <= n -> ChrFunction_call n = ChrFunction_call (n mod 256).
Proof.
  intros Hn. pose proof (Z.mod_pos_bound n 256 ltac:(lia)) as Hm.
  rewrite (chr_low_bits n Hn), (chr_low_bits (n mod 256)) by lia.
  now rewrite Z.mod_mod by lia.
Qed.

Lemma chr_scalar_value_byte :
  forall m, 0 <= m < 256 ->
    (match scalar_value (ChrFunction_call m) with
     | Some v => v =? m
     | None => false
     end) = true.
Proof. apply below_256_cases. vm_compute. reflexivity. Qed.

(** X21.  For [n >= 0], the bytes of [chr(n)] are the UTF-8 encoding of
    the scalar value [n mod 256]: read back by the UTF-8 rule for one- and
    two-byte sequences they give that value. *)
Theorem chr_encodes_low_byte (n : Z) :
  0 <= n -> scalar_value (ChrFunction_call n) = Some (n mod 256).
Proof.
  intros Hn. rewrite chr_mod_256 by assumption.
  pose proof (chr_scalar_value_byte (n mod 256)
                (Z.mod_pos_bound n 256 ltac:(lia))) as H.
  destruct (scalar_value (ChrFunction_call (n mod 256))) as [v|];
    [|discriminate].
  apply Z.eqb_eq in H. now subst.
Qed.

(** X22.  For [a, b >= 0], [chr(a)] and [chr(b)] are equal exactly when
    [a] and [b] agree modulo 256. *)
Theorem chr_injective_mod_256 (a b : Z) :
  0 <= a -> 0 <= b ->
  ChrFunction_call a = ChrFunction_call b <-> a mod 256 = b mod 256.
Proof.
  intros Ha Hb. split.
  - intros H. apply (f_equal scalar_value) in H.
    rewrite !chr_encodes_low_byte in H by assumption. congruence.
  - intros H. rewrite (chr_mod_256 a), (chr_mod_256 b) by assumption.
    now rewrite H.
Qed.

Lemma chr_codepoint_byte :
  forall m, 0 <= m < 256 ->
    (is_codepoint (ChrFunction_call m)
     && (stringImpl_length false (ChrFunction_call m) =? 1)) = true.
Proof. apply below_256_cases. vm_compute. reflexivity. Qed.

(** X23.  For [n >= 0], [chr(n)] is one complete codepoint: well-formed
    text whose codepoint count is 1. *)
Theorem chr_is_one_codepoint (n : Z) :
  0 <= n ->
  is_codepoint (ChrFunction_call n) = true
  /\ well_formed_utf8 (ChrFunction_call n) = true
  /\ stringImpl_length false (ChrFunction_call n) = 1.
Proof.
  intros Hn. rewrite chr_mod_256 by assumption.
  pose proof (chr_codepoint_byte (n mod 256)
                (Z.mod_pos_bound n 256 ltac:(lia))) as H.
  apply andb_true_iff in H. destruct H as [H1 H2]. apply Z.eqb_eq in H2.
  split; [exact H1|]. split; [|exact H2].
  unfold well_formed_utf8.
  rewrite <- (app_nil_r (ChrFunction_call (n mod 256))).
  change (ChrFunction_call (n mod 256) ++ [])
    with (concat [ChrFunction_call (n mod 256)]).
  rewrite codepoints_of_concat; cbn [well_formed forallb]; now rewrite H1.
Qed.

Lemma chr_empty_iff_negative_witness :
  (ChrFunction_call 233 = [] <-> 233 < 0)
  /\ (0 <= 233 -> 233 mod 256 < 128 -> length (ChrFunction_call 233) = 1%nat)
  /\ (0 <= 233 -> 128 <= 233 mod 256 -> length (ChrFunction_call 233) = 2%nat).
Proof. exact (chr_empty_iff_negative 233). Defined.

Lemma chr_mod_256_witness :
  0 <= 321 /\ ChrFunction_call 321 = ChrFunction_call (321 mod 256).
Proof.
  assert (H1 : 0 <= 321) by lia.
  split; [exact H1|]. exact (chr_mod_256 321 H1).
Defined.

Lemma chr_encodes_low_byte_witness :
  0 <= 233 /\ scalar_value (ChrFunction_call 233) = Some (233 mod 256).
Proof.
  assert (H1 : 0 <= 233) by lia.
  split; [exact H1|]. exact (chr_encodes_low_byte 233 H1).
Defined.

Lemma chr_injective_mod_256_witness :
  0 <= 65 /\ 0 <= 321
  /\ (ChrFunction_call 65 = ChrFunction_call 321 <-> 65 mod 256 = 321 mod 256).
Proof.
  assert (H1 : 0 <= 65) by lia.
  assert (H2 : 0 <= 321) by lia.
  split; [exact H1|]. split; [exact H2|].
  exact (chr_injective_mod_256 65 321 H1 H2).
Defined.

Lemma chr_is_one_codepoint_witness :
  0 <= 233
  /\ is_codepoint (ChrFunction_call 233) = true
  /\ well_formed_utf8 (ChrFunction_call 233) = true
  /\ stringImpl_length false (ChrFunction_call 233) = 1.
Proof.
  assert (H1 : 0 <= 233) by lia.
  split; [exact H1|]. exact (chr_is_one_codepoint 233 H1).
Defined.

(* ================================================================== *)
(** ** SubstringExtractor: what the window selects *)

(** The window of a start at position 1 or later: it begins at [start] and
    is cut at the end of the text. *)
Lemma substr_window_positive (N start length : Z) :
  0 <= N <= INT32_MAX -> 1 <= start -> 0 < length ->
  substr_window N start length
  = (start, Z.min (start + length - 1) N - start + 1).
Proof.
  intros HN Hs Hl. unfold substr_window, INT32_MIN, INT32_MAX in *. cbv zeta.
  destruct (Z.eqb_spec start 0); [lia|].
  destruct (Z.ltb_spec start 0); [lia|].
  destruct (Z.leb_spec start 0); [lia|].
  destruct (Z.ltb_spec (start + length - 1) (- 2 ^ 31)); [lia|].
  destruct (Z.ltb_spec (2 ^ 31 - 1) (start + length - 1));
    destruct (Z.ltb_spec N (start + length - 1)); cbn [orb]; f_equal; lia.
Qed.

Lemma substr_window_negative (N k length : Z) :
  1 <= k <= N ->
  substr_window N (- k) length = substr_window N (N - k + 1) length.
Proof.
  intros Hk. unfold substr_window. cbv zeta.
  destruct (Z.eqb_spec (- k) 0); [lia|].
  destruct (Z.eqb_spec (N - k + 1) 0); [lia|].
  destruct (Z.ltb_spec (- k) 0); [|lia].
  destruct (Z.ltb_spec (N - k + 1) 0); [lia|].
  replace (N + - k + 1) with (N - k + 1) by lia. reflexivity.
Qed.

(** A start [-k] that falls inside the text is the start [N - k + 1]. *)
Lemma doCall_negative_start
  (isAscii : bool) (input : bytes) (k length : Z) :
  spark_size input -> in_int32 length ->
  1 <= k <= stringImpl_length isAscii input ->
  SubstrFunction_doCall isAscii input (- k) length
  = SubstrFunction_doCall isAscii input
      (stringImpl_length isAscii input - k + 1) length.
Proof.
  intros Hsz Hl Hk.
  pose proof (stringImpl_length_bounds isAscii input) as HN.
  unfold spark_size, INT32_MAX in Hsz.
  destruct (Z.leb_spec length 0) as [Hle|Hpos].
  - unfold SubstrFunction_doCall. apply Z.leb_le in Hle. now rewrite Hle.
  - rewrite !doCall_window;
      try assumption; try (unfold in_int32, INT32_MIN, INT32_MAX; lia).
    now rewrite substr_window_negative.
Qed.

(** X25.  [substr] with a start beyond the last codepoint returns the
    empty result, on both entry points and for every length. *)
Theorem substr_start_past_end_is_empty
  (isAscii : bool) (input : bytes) (start length : Z) :
  spark_size input -> in_int32 start -> in_int32 length ->
  stringImpl_length isAscii input < start ->
  SubstrFunction_doCall isAscii input start length = setEmpty.
Proof.
  intros Hsz Hs Hl Hpast.
  pose proof (stringImpl_length_bounds isAscii input) as HN.
  unfold spark_size in Hsz.
  destruct (Z.leb_spec length 0) as [Hle|Hpos].
  - unfold SubstrFunction_doCall. apply Z.leb_le in Hle. now rewrite Hle.
  - rewrite doCall_window by assumption.
    rewrite substr_window_positive by lia. cbv zeta. cbn [fst snd].
    destruct (Z.leb_spec (Z.min (start + length - 1)
                            (stringImpl_length isAscii input) - start + 1) 0);
      [reflexivity|lia].
Qed.

Lemma firstn_min_length {A : Type} (n : nat) (l : list A) :
  firstn (Nat.min n (length l)) l = firstn n l.
Proof.
  destruct (Nat.le_ge_cases n (length l)).
  - now rewrite Nat.min_l.
  - rewrite Nat.min_r by assumption. now rewrite firstn_all, firstn_all2.
Qed.

Lemma firstn_add {A : Type} (a b : nat) (l : list A) :
  firstn (a + b) l = firstn a l ++ firstn b (skipn a l).
Proof.
  revert l. induction a as [|a IH]; intros l; [reflexivity|].
  destruct l as [|x l]; [now rewrite !firstn_nil|].
  cbn [Nat.add firstn skipn app]. f_equal. apply IH.
Qed.

(** The ASCII entry point with a start at 1 or later. *)
Lemma substr_ascii_positive (input : bytes) (start length : Z) :
  spark_size input -> 1 <= start <= INT32_MAX -> 0 < length <= INT32_MAX ->
  bytes_of input (SubstrFunction_callAscii input start length)
  = firstn (Z.to_nat length) (skipn (Z.to_nat (start - 1)) input).
Proof.
  intros Hsz Hs Hl. unfold SubstrFunction_callAscii.
  pose proof (size_nonneg input) as H0. unfold spark_size in Hsz.
  rewrite doCall_window;
    try assumption; try (unfold in_int32, INT32_MIN, INT32_MAX in *; lia).
  unfold stringImpl_length.
  rewrite substr_window_positive by lia. cbv zeta. cbn [fst snd].
  destruct (Z.leb_spec (Z.min (start + length - 1) (size input) - start + 1) 0)
    as [Hle|Hgt]; cbn [bytes_of].
  - rewrite skipn_all2 by (unfold size in *; lia). now rewrite firstn_nil.
  - unfold getByteRange. cbn [fst snd]. unfold sv_make.
    rewrite <- (firstn_min_length (Z.to_nat length)).
    f_equal. rewrite length_skipn. unfold size in *. lia.
Qed.

Lemma advance_codepoints (todo : codepoints) :
  well_formed todo = true ->
  forall (pre : bytes) (k : nat),
    advance (pre ++ concat todo) k (size pre)
    = size pre + size (concat (firstn k todo)).
Proof.
  induction todo as [|c todo IH]; intros Hwf pre k.
  - rewrite firstn_nil. cbn [concat]. rewrite app_nil_r, size_nil, Z.add_0_r.
    destruct k; cbn [advance]; [reflexivity|].
    now rewrite Z.ltb_irrefl.
  - cbn [well_formed forallb] in Hwf. apply andb_true_iff in Hwf.
    destruct Hwf as [Hc Hwf].
    destruct (is_codepoint_inv c Hc) as (b & conts & -> & Hb & Hlen & Hconts).
    destruct k as [|k]; cbn [advance firstn concat].
    + rewrite size_nil. lia.
    + pose proof (size_nonneg conts). pose proof (size_nonneg (concat todo)).
      rewrite !size_app, size_cons.
      destruct (Z.ltb_spec (size pre)
                  (size pre + (1 + size conts + size (concat todo)))); [|lia].
      assert (Hbyte : byte_at (pre ++ (b :: conts) ++ concat todo) (size pre)
                      = b)
        by apply (byte_at_app pre (conts ++ concat todo) b).
      rewrite Hbyte, Hlen, size_cons.
      rewrite Z.min_r by lia.
      replace (size pre + (1 + size conts)) with (size (pre ++ b :: conts))
        by (rewrite size_app, size_cons; lia).
      replace (pre ++ (b :: conts) ++ concat todo)
        with ((pre ++ b :: conts) ++ concat todo) by now rewrite <- app_assoc.
      rewrite (IH Hwf). rewrite !size_app, size_cons. lia.
Qed.

Lemma count_codepoints_wf (todo : codepoints) :
  well_formed todo = true ->
  forall (pre : bytes) (fuel : nat),
    size (concat todo) <= Z.of_nat fuel ->
    count_codepoints fuel (pre ++ concat todo) (size pre)
    = Z.of_nat (length todo).
Proof.
  induction todo as [|c todo IH]; intros Hwf pre fuel Hf.
  - cbn [concat length]. rewrite app_nil_r.
    destruct fuel; cbn [count_codepoints]; [reflexivity|].
    now rewrite Z.ltb_irrefl.
  - cbn [well_formed forallb] in Hwf. apply andb_true_iff in Hwf.
    destruct Hwf as [Hc Hwf].
    destruct (is_codepoint_inv c Hc) as (b & conts & -> & Hb & Hlen & Hconts).
    cbn [concat] in *. rewrite size_app, size_cons in Hf.
    pose proof (size_nonneg conts). pose proof (size_nonneg (concat todo)).
    destruct fuel as [|fuel]; [lia|]. cbn [count_codepoints].
    rewrite !size_app, size_cons.
    destruct (Z.ltb_spec (size pre)
                (size pre + (1 + size conts + size (concat todo)))); [|lia].
    assert (Hbyte : byte_at (pre ++ (b :: conts) ++ concat todo) (size pre)
                    = b)
      by apply (byte_at_app pre (conts ++ concat todo) b).
    rewrite Hbyte, Hlen, size_cons.
    replace (size pre + (1 + size conts)) with (size (pre ++ b :: conts))
      by (rewrite size_app, size_cons; lia).
    replace (pre ++ (b :: conts) ++ concat todo)
      with ((pre ++ b :: conts) ++ concat todo) by now rewrite <- app_assoc.
    rewrite (IH Hwf) by lia. cbn [length]. lia.
Qed.

(** The codepoint count of well-formed text is the number of its
    codepoints. *)
Lemma stringImpl_length_codepoints (s : bytes) :
  well_formed_utf8 s = true ->
  stringImpl_length false s = Z.of_nat (length (codepoints_of s)).
Proof.
  intros Hwf. unfold stringImpl_length.
  rewrite <- (concat_codepoints_of s) at 1 2.
  change (concat (codepoints_of s)) with ([] ++ concat (codepoints_of s)) at 2.
  change 0 with (size []).
  apply count_codepoints_wf; [exact Hwf|].
  rewrite concat_codepoints_of. unfold size. lia.
Qed.

(** The general entry point with a start at 1 or later. *)
Lemma substr_general_positive (input : bytes) (start length : Z) :
  well_formed_utf8 input = true -> spark_size input ->
  1 <= start <= INT32_MAX -> 0 < length <= INT32_MAX ->
  bytes_of input (SubstrFunction_call input start length)
  = concat (firstn (Z.to_nat length)
              (skipn (Z.to_nat (start - 1)) (codepoints_of input))).
Proof.
  intros Hwf Hsz Hs Hl. unfold SubstrFunction_call.
  pose proof (stringImpl_length_bounds false input) as HN.
  unfold spark_size in Hsz.
  rewrite doCall_window;
    try assumption; try (unfold in_int32, INT32_MIN, INT32_MAX in *; lia).
  rewrite substr_window_positive by lia. cbv zeta. cbn [fst snd].
  rewrite (stringImpl_length_codepoints input Hwf) in *.
  set (cps := codepoints_of input) in *.
  destruct (Z.leb_spec (Z.min (start + length - 1) (Z.of_nat (List.length cps))
                        - start + 1) 0) as [Hle|Hgt]; cbn [bytes_of].
  - rewrite skipn_all2 by lia. now rewrite firstn_nil.
  - unfold getByteRange. cbn [fst snd].
    set (a := Z.to_nat (start - 1)).
    set (n := Z.to_nat (Z.min (start + length - 1) (Z.of_nat (List.length cps))
                        - start + 1)).
    assert (Hin : input = [] ++ concat cps)
      by (symmetry; apply concat_codepoints_of).
    assert (Ha : advance input a 0 = size (concat (firstn a cps))).
    { rewrite Hin at 1. change 0 with (size []) at 1.
      rewrite advance_codepoints by exact Hwf. rewrite size_nil. lia. }
    rewrite Ha.
    assert (Hsplit : cps = firstn a cps ++ firstn n (skipn a cps)
                           ++ skipn n (skipn a cps))
      by now rewrite !firstn_skipn.
    assert (Hsplit2 : cps = firstn a cps ++ skipn a cps)
      by now rewrite firstn_skipn.
    assert (Hwf3 : well_formed (skipn a cps) = true).
    { unfold well_formed_utf8 in Hwf. fold cps in Hwf.
      rewrite Hsplit2, well_formed_app in Hwf.
      now apply andb_true_iff in Hwf. }
    assert (Hb : advance input n (size (concat (firstn a cps)))
                 = size (concat (firstn a cps))
                   + size (concat (firstn n (skipn a cps)))).
    { rewrite Hin at 1. cbn [app]. rewrite Hsplit2 at 1.
      rewrite concat_app.
      now rewrite advance_codepoints by exact Hwf3. }
    rewrite Hb.
    replace (size (concat (firstn a cps))
             + size (concat (firstn n (skipn a cps)))
             - size (concat (firstn a cps)))
      with (size (concat (firstn n (skipn a cps)))) by lia.
    rewrite Hin at 1. cbn [app]. rewrite Hsplit at 1.
    rewrite !concat_app, sv_make_app.
    f_equal. rewrite <- (firstn_min_length (Z.to_nat length)).
    f_equal. rewrite length_skipn. subst n a. lia.
Qed.

Lemma substr_window_before_text (N k length : Z) :
  0 <= N <= INT32_MAX -> N < k -> 0 < length -> 0 < length + N - k ->
  substr_window N (- k) length = substr_window N 1 (length + N - k).
Proof.
  intros HN Hk Hl Hl2. rewrite (substr_window_positive N 1) by lia.
  unfold substr_window, INT32_MIN, INT32_MAX in *. cbv zeta.
  destruct (Z.eqb_spec (- k) 0); [lia|].
  destruct (Z.ltb_spec (- k) 0); [|lia].
  destruct (Z.leb_spec (N + - k + 1) 0); [|lia].
  destruct (Z.ltb_spec (N + - k + 1 + length - 1) (- 2 ^ 31)); [lia|].
  destruct (Z.ltb_spec (2 ^ 31 - 1) (N + - k + 1 + length - 1));
    destruct (Z.ltb_spec N (N + - k + 1 + length - 1)); cbn [orb];
    f_equal; lia.
Qed.

(** X24.  A negative start counts from the end, on both entry points:
    with [N] codepoints, [substr(s, -k, length)] is
    [substr(s, N - k + 1, length)] when [k <= N]; when [-k] falls before
    the text ([k > N]) it is [substr(s, 1, length + N - k)], the window
    shortened by the positions that lie before the first codepoint. *)
Theorem substr_negative_start_from_end
  (isAscii : bool) (input : bytes) (k length : Z) :
  spark_size input -> in_int32 (- k) -> in_int32 length -> 1 <= k ->
  let N := stringImpl_length isAscii input in
  (k <= N ->
   SubstrFunction_doCall isAscii input (- k) length
   = SubstrFunction_doCall isAscii input (N - k + 1) length)
  /\ (N < k ->
      SubstrFunction_doCall isAscii input (- k) length
      = SubstrFunction_doCall isAscii input 1 (length + N - k)).
Proof.
  intros Hsz Hk32 Hl Hk N. split; intros HkN.
  - apply doCall_negative_start; try assumption. subst N. lia.
  - pose proof (stringImpl_length_bounds isAscii input) as HN. fold N in HN.
    unfold spark_size in Hsz. unfold in_int32, INT32_MIN, INT32_MAX in *.
    destruct (Z.leb_spec length 0) as [Hle|Hpos].
    { unfold SubstrFunction_doCall.
      destruct (Z.leb_spec length 0); [|lia].
      destruct (Z.leb_spec (length + N - k) 0); [reflexivity|lia]. }
    rewrite (doCall_window isAscii input (- k));
      try assumption; try (unfold in_int32, INT32_MIN, INT32_MAX; lia).
    fold N.
    destruct (Z.leb_spec (length + N - k) 0) as [Hle2|Hpos2].
    + unfold SubstrFunction_doCall at 1.
      destruct (Z.leb_spec (length + N - k) 0); [|lia].
      assert (Hw := substr_window_bounds N (- k) length ltac:(lia) Hpos).
      assert (Hsnd : snd (substr_window N (- k) length) <= 0).
      { unfold substr_window, INT32_MIN, INT32_MAX. cbv zeta. cbn [snd].
        destruct (Z.eqb_spec (- k) 0); [lia|].
        destruct (Z.ltb_spec (- k) 0); [|lia].
        destruct (Z.leb_spec (N + - k + 1) 0); [|lia].
        destruct (Z.ltb_spec (N + - k + 1 + length - 1) (- 2 ^ 31)); [lia|].
        destruct (Z.ltb_spec (2 ^ 31 - 1) (N + - k + 1 + length - 1));
          destruct (Z.ltb_spec N (N + - k + 1 + length - 1)); cbn [orb]; lia. }
      cbv zeta. apply Z.leb_le in Hsnd. now rewrite Hsnd.
    + rewrite (doCall_window isAscii input 1);
        try assumption; try (unfold in_int32, INT32_MIN, INT32_MAX; lia).
      fold N. now rewrite substr_window_before_text
        by (unfold INT32_MAX; lia).
Qed.

(** X26.  On the ASCII entry point, [substr(s, start, length)] with
    [start >= 1] is [length] bytes (fewer at the end of the string) after
    skipping [start - 1] bytes, and [substr(s, -k, length)] the same after
    skipping all but the last [k] bytes. *)
Theorem substr_ascii_takes_bytes (input : bytes) (start k length : Z) :
  spark_size input -> 1 <= start <= INT32_MAX -> 1 <= k <= size input ->
  0 < length <= INT32_MAX ->
  bytes_of input (SubstrFunction_callAscii input start length)
  = firstn (Z.to_nat length) (skipn (Z.to_nat (start - 1)) input)
  /\ bytes_of input (SubstrFunction_callAscii input (- k) length)
     = firstn (Z.to_nat length) (skipn (Z.to_nat (size input - k)) input).
Proof.
  intros Hsz Hs Hk Hl. split; [now apply substr_ascii_positive|].
  unfold SubstrFunction_callAscii. unfold spark_size in Hsz.
  rewrite doCall_negative_start;
    try assumption; try (unfold in_int32, INT32_MIN, INT32_MAX in *; lia).
  unfold stringImpl_length.
  change (SubstrFunction_doCall true) with SubstrFunction_callAscii.
  rewrite substr_ascii_positive by (try assumption; lia).
  now replace (size input - k + 1 - 1) with (size input - k) by lia.
Qed.

(** X27.  On well-formed input the general entry point counts by
    codepoint: [substr(s, start, length)] with [start >= 1] is the bytes
    of [length] codepoints (fewer at the end) after skipping [start - 1]
    codepoints, and [substr(s, -k, length)] the same after skipping all
    but the last [k] codepoints. *)
Theorem substr_takes_codepoints (input : bytes) (start k length : Z) :
  well_formed_utf8 input = true -> spark_size input ->
  1 <= start <= INT32_MAX ->
  1 <= k <= Z.of_nat (List.length (codepoints_of input)) ->
  0 < length <= INT32_MAX ->
  bytes_of input (SubstrFunction_call input start length)
  = concat (firstn (Z.to_nat length)
              (skipn (Z.to_nat (start - 1)) (codepoints_of input)))
  /\ bytes_of input (SubstrFunction_call input (- k) length)
     = concat (firstn (Z.to_nat length)
                 (skipn (List.length (codepoints_of input) - Z.to_nat k)
                    (codepoints_of input))).
Proof.
  intros Hwf Hsz Hs Hk Hl. split; [now apply substr_general_positive|].
  pose proof (stringImpl_length_bounds false input) as HN.
  pose proof (stringImpl_length_codepoints input Hwf) as Hcount.
  unfold SubstrFunction_call. unfold spark_size in Hsz.
  rewrite doCall_negative_start;
    try assumption; try (unfold in_int32, INT32_MIN, INT32_MAX in *; lia).
  change (SubstrFunction_doCall false) with SubstrFunction_call.
  rewrite substr_general_positive by (try assumption; lia).
  rewrite Hcount. do 3 f_equal. lia.
Qed.

(** X28.  The two-argument form [substr(s, start)] with [start >= 1]
    returns the rest of the string from codepoint [start] on. *)
Theorem substr_rest_of_string (input : bytes) (start : Z) :
  well_formed_utf8 input = true -> spark_size input ->
  1 <= start <= INT32_MAX ->
  bytes_of input (SubstrFunction_call2 input start)
  = concat (skipn (Z.to_nat (start - 1)) (codepoints_of input)).
Proof.
  intros Hwf Hsz Hs. unfold SubstrFunction_call2.
  rewrite substr_general_positive
    by (try assumption; unfold INT32_MAX in *; lia).
  f_equal. apply firstn_all2. rewrite length_skipn.
  pose proof (stringImpl_length_bounds false input) as HN.
  rewrite (stringImpl_length_codepoints input Hwf) in HN.
  unfold spark_size in Hsz. lia.
Qed.

Lemma substr_start_past_end_is_empty_witness :
  spark_size (bs "Hello") /\ in_int32 9 /\ in_int32 3
  /\ stringImpl_length false (bs "Hello") < 9
  /\ SubstrFunction_doCall false (bs "Hello") 9 3 = setEmpty.
Proof.
  assert (H1 : spark_size (bs "Hello")) by (vm_compute; discriminate).
  assert (H2 : in_int32 9) by (unfold in_int32, INT32_MIN, INT32_MAX; lia).
  assert (H3 : in_int32 3) by (unfold in_int32, INT32_MIN, INT32_MAX; lia).
  assert (H4 : stringImpl_length false (bs "Hello") < 9)
    by (vm_compute; reflexivity).
  split; [exact H1|]. split; [exact H2|]. split; [exact H3|].
  split; [exact H4|].
  exact (substr_start_past_end_is_empty false (bs "Hello") 9 3 H1 H2 H3 H4).
Defined.

Lemma substr_negative_start_from_end_witness :
  spark_size (bs "Hello") /\ in_int32 (- 10) /\ in_int32 7 /\ 1 <= 10
  /\ (let N := stringImpl_length false (bs "Hello") in
      (10 <= N ->
       SubstrFunction_doCall false (bs "Hello") (- 10) 7
       = SubstrFunction_doCall false (bs "Hello") (N - 10 + 1) 7)
      /\ (N < 10 ->
          SubstrFunction_doCall false (bs "Hello") (- 10) 7
          = SubstrFunction_doCall false (bs "Hello") 1 (7 + N - 10))).
Proof.
  assert (H1 : spark_size (bs "Hello")) by (vm_compute; discriminate).
  assert (H2 : in_int32 (- 10))
    by (unfold in_int32, INT32_MIN, INT32_MAX; lia).
  assert (H3 : in_int32 7) by (unfold in_int32, INT32_MIN, INT32_MAX; lia).
  assert (H4 : 1 <= 10) by lia.
  split; [exact H1|]. split; [exact H2|]. split; [exact H3|].
  split; [exact H4|].
  exact (substr_negative_start_from_end false (bs "Hello") 10 7 H1 H2 H3 H4).
Defined.

Lemma substr_ascii_takes_bytes_witness :
  spark_size (bs "Hello world") /\ 1 <= 1 <= INT32_MAX
  /\ 1 <= 5 <= size (bs "Hello world") /\ 0 < 5 <= INT32_MAX
  /\ bytes_of (bs "Hello world")
       (SubstrFunction_callAscii (bs "Hello world") 1 5)
     = firstn (Z.to_nat 5) (skipn (Z.to_nat (1 - 1)) (bs "Hello world"))
  /\ bytes_of (bs "Hello world")
       (SubstrFunction_callAscii (bs "Hello world") (- 5) 5)
     = firstn (Z.to_nat 5)
         (skipn (Z.to_nat (size (bs "Hello world") - 5)) (bs "Hello world")).
Proof.
  assert (H1 : spark_size (bs "Hello world")) by (vm_compute; discriminate).
  assert (H2 : 1 <= 1 <= INT32_MAX) by (unfold INT32_MAX; lia).
  assert (H3 : 1 <= 5 <= size (bs "Hello world"))
    by (vm_compute; split; discriminate).
  assert (H4 : 0 < 5 <= INT32_MAX) by (unfold INT32_MAX; lia).
  split; [exact H1|]. split; [exact H2|]. split; [exact H3|].
  split; [exact H4|].
  exact (substr_ascii_takes_bytes (bs "Hello world") 1 5 5 H1 H2 H3 H4).
Defined.

Lemma substr_takes_codepoints_witness :
  well_formed_utf8 multibyte = true /\ spark_size multibyte
  /\ 1 <= 2 <= INT32_MAX
  /\ 1 <= 1 <= Z.of_nat (List.length (codepoints_of multibyte))
  /\ 0 < 1 <= INT32_MAX
  /\ bytes_of multibyte (SubstrFunction_call multibyte 2 1)
     = concat (firstn (Z.to_nat 1)
                 (skipn (Z.to_nat (2 - 1)) (codepoints_of multibyte)))
  /\ bytes_of multibyte (SubstrFunction_call multibyte (- 1) 1)
     = concat (firstn (Z.to_nat 1)
                 (skipn (List.length (codepoints_of multibyte) - Z.to_nat 1)
                    (codepoints_of multibyte))).
Proof.
  assert (H1 : well_formed_utf8 multibyte = true) by reflexivity.
  assert (H2 : spark_size multibyte) by (vm_compute; discriminate).
  assert (H3 : 1 <= 2 <= INT32_MAX) by (unfold INT32_MAX; lia).
  assert (H4 : 1 <= 1 <= Z.of_nat (List.length (codepoints_of multibyte)))
    by (vm_compute; split; discriminate).
  assert (H5 : 0 < 1 <= INT32_MAX) by (unfold INT32_MAX; lia).
  split; [exact H1|]. split; [exact H2|]. split; [exact H3|].
  split; [exact H4|]. split; [exact H5|].
  exact (substr_takes_codepoints multibyte 2 1 1 H1 H2 H3 H4 H5).
Defined.

Lemma substr_rest_of_string_witness :
  well_formed_utf8 multibyte = true /\ spark_size multibyte
  /\ 1 <= 2 <= INT32_MAX
  /\ bytes_of multibyte (SubstrFunction_call2 multibyte 2)
     = concat (skipn (Z.to_nat (2 - 1)) (codepoints_of multibyte)).
Proof.
  assert (H1 : well_formed_utf8 multibyte = true) by reflexivity.
  assert (H2 : spark_size multibyte) by (vm_compute; discriminate).
  assert (H3 : 1 <= 2 <= INT32_MAX) by (unfold INT32_MAX; lia).
  split; [exact H1|]. split; [exact H2|]. split; [exact H3|].
  exact (substr_rest_of_string multibyte 2 H1 H2 H3).
Defined.

(* ================================================================== *)
(** ** DelimiterSplitter: the empty delimiter from the right *)

Lemma occ_below_empty_delim (s : bytes) (m : nat) :
  (m <= S (length s))%nat -> occ_below s [] m = rev (seq 0 m).
Proof.
  intros Hm. unfold occ_below. f_equal. apply forallb_filter_id.
  apply forallb_forall. intros i Hi. apply in_seq in Hi. unfold match_at.
  destruct (Nat.leb_spec i (length s)); [reflexivity|lia].
Qed.

(** X29.  With the empty delimiter and [count < 0], [|count|] at most the
    byte length, [substring_index] returns the last [|count|] bytes of the
    input. *)
Theorem substring_index_empty_delim_from_right (str : bytes) (count : Z) :
  view_size str -> INT32_MIN < count < 0 -> - count <= size str ->
  SubstringIndexFunction_call str [] count
  = setNoCopy (size str + count) (- count)
  /\ bytes_of str (SubstringIndexFunction_call str [] count)
     = skipn (length str - Z.to_nat (- count)) str.
Proof.
  intros Hsz Hc Hk. unfold view_size, UINT32_MAX in Hsz.
  unfold INT32_MIN in Hc.
  assert (Hcall : SubstringIndexFunction_call str [] count
                  = setNoCopy (size str + count) (- count)).
  { unfold SubstringIndexFunction_call.
    destruct (Z.eqb_spec count 0); [lia|].
    destruct (Z.ltb_spec 0 count); [lia|]. cbv zeta.
    rewrite (wrap32_id (- count))
      by (unfold in_int32, INT32_MIN, INT32_MAX; lia).
    rewrite (wrap64_id (size str - 1)) by lia.
    rewrite (rfind_loop_occ str [] (- count) Hsz
               ltac:(rewrite size_nil; lia) ltac:(unfold INT32_MAX; lia)
               (Z.to_nat (- count)) 0 (size str - 1)
               (length str - Z.to_nat (- count))); try lia.
    - rewrite size_nil. unfold size in *.
      destruct (Z.eqb_spec (Z.of_nat (length str - Z.to_nat (- count))) npos)
        as [E|_]; [unfold npos in E; lia|].
      rewrite (wrap64_id (Z.of_nat (length str)
                          - Z.of_nat (length str - Z.to_nat (- count))))
        by lia.
      rewrite wrap64_id by lia. f_equal; lia.
    - rewrite size_nil. unfold size in *.
      replace (S (Z.to_nat (Z.min (Z.of_nat (length str) - 1)
                              (Z.of_nat (length str) - 0))))
        with (length str) by lia.
      rewrite occ_below_empty_delim by lia.
      rewrite nth_error_rev, length_seq.
      destruct (Nat.ltb_spec (Z.to_nat (- count - 0 - 1)) (length str)); [|lia].
      rewrite List.nth_error_seq.
      destruct (Nat.ltb_spec (length str - S (Z.to_nat (- count - 0 - 1)))
                  (length str)); [|lia].
      f_equal. lia. }
  split; [exact Hcall|]. rewrite Hcall. cbn [bytes_of]. unfold sv_make, size.
  replace (Z.to_nat (Z.of_nat (length str) + count))
    with (length str - Z.to_nat (- count))%nat by (unfold size in *; lia).
  apply firstn_all2. rewrite length_skipn. unfold size in *. lia.
Qed.

Lemma substring_index_empty_delim_from_right_witness :
  view_size (bs "abc") /\ INT32_MIN < -2 < 0 /\ - -2 <= size (bs "abc")
  /\ SubstringIndexFunction_call (bs "abc") [] (-2)
     = setNoCopy (size (bs "abc") + -2) (- -2)
  /\ bytes_of (bs "abc") (SubstringIndexFunction_call (bs "abc") [] (-2))
     = skipn (length (bs "abc") - Z.to_nat (- -2)) (bs "abc").
Proof.
  assert (H1 : view_size (bs "abc")) by (vm_compute; discriminate).
  assert (H2 : INT32_MIN < -2 < 0) by (unfold INT32_MIN; lia).
  assert (H3 : - -2 <= size (bs "abc")) by (vm_compute; discriminate).
  split; [exact H1|]. split; [exact H2|]. split; [exact H3|].
  exact (substring_index_empty_delim_from_right (bs "abc") (-2) H1 H2 H3).
Defined.
